(** * Shard-range flag and reverse-index backfill of rekor

    A shallow embedding of [cmd/rekor-server/app/flags.go] (the
    [LogRangesFlag] value: [Set], [String]) and of the per-index loop of
    [cmd/backfill-redis/main.go], with the properties of both.

    Go strings are byte sequences and are embedded as [list ascii]; the
    unsigned 64-bit integers are embedded in [Z] with the wrap-around of
    their arithmetic written out. *)

From Stdlib Require Import ZArith Ascii String Lia List Bool.
From stdpp Require Import gmap list strings.
Import ListNotations.
Open Scope Z_scope.

(** A string literal as the byte sequence Go sees. *)
Definition str (s : string) : list ascii := list_ascii_of_string s.

(** ** Package strings *)

Module strings.

(** [strings.Split(s, sep)] for a separator of one byte: all the substrings
    of [s] between the occurrences of [sep]; never an empty slice. *)
Fixpoint Split (s : list ascii) (sep : ascii) : list (list ascii) :=
  match s with
  | [] => [[]]
  | c :: s' =>
      if Ascii.eqb c sep then [] :: Split s' sep
      else match Split s' sep with
           | t :: ts => (c :: t) :: ts
           | [] => [[c]]
           end
  end.

(** [strings.SplitN(s, sep, 2)] for a separator of one byte: [s] cut at the
    first occurrence of [sep], or [s] alone when there is none. *)
Fixpoint SplitN2 (s : list ascii) (sep : ascii) : list (list ascii) :=
  match s with
  | [] => [[]]
  | c :: s' =>
      if Ascii.eqb c sep then [[]; s']
      else match SplitN2 s' sep with
           | t :: ts => (c :: t) :: ts
           | [] => [[c]]
           end
  end.

(** [strings.Join(elems, sep)] for a separator of one byte. *)
Fixpoint Join (elems : list (list ascii)) (sep : ascii) : list ascii :=
  match elems with
  | [] => []
  | [e] => e
  | e :: es => e ++ sep :: Join es sep
  end.

End strings.

(** ** Package strconv *)

Module strconv.

Definition maxUint64 : Z := 2 ^ 64 - 1.

(** Arithmetic on [uint64] wraps around. *)
Definition wrap64 (z : Z) : Z := z mod 2 ^ 64.

Definition byteval (c : ascii) : Z := Z.of_N (N_of_ascii c).

(** [lower(c)]: [c | ('x' - 'X')]. *)
Definition lower (c : Z) : Z := Z.lor c 32.

Inductive numErr := ErrSyntax | ErrRange.

(** [*strconv.NumError]: the text that failed to convert and the reason. *)
Record NumError := { Num : list ascii; Err : numErr }.

(** The value of one byte as a digit, for the bases up to 36. *)
Definition digitOf (c : ascii) : option Z :=
  let b := byteval c in
  if (48 <=? b) && (b <=? 57) then Some (b - 48)
  else if (97 <=? lower b) && (lower b <=? 122) then Some (lower b - 97 + 10)
  else None.

(** [cutoff] is the smallest number such that [cutoff * 10 > maxUint64]. *)
Definition cutoff : Z := maxUint64 / 10 + 1.

(** The loop of [ParseUint(s, 10, 64)] over the bytes of [s], from the
    accumulator [n]. *)
Fixpoint ParseUint_loop (s : list ascii) (n : Z) : Z * option numErr :=
  match s with
  | [] => (n, None)
  | c :: s' =>
      match digitOf c with
      | None => (0, Some ErrSyntax)
      | Some d =>
          if 10 <=? d then (0, Some ErrSyntax)
          else if cutoff <=? n then (maxUint64, Some ErrRange)
          else
            let n10 := wrap64 (n * 10) in
            let n1 := wrap64 (n10 + d) in
            if (n1 <? n10) || (maxUint64 <? n1) then (maxUint64, Some ErrRange)
            else ParseUint_loop s' n1
      end
  end.

(** [strconv.ParseUint(s, 10, 64)]. *)
Definition ParseUint (s : list ascii) : Z * option NumError :=
  match s with
  | [] => (0, Some {| Num := s; Err := ErrSyntax |})
  | _ =>
      match ParseUint_loop s 0 with
      | (n, None) => (n, None)
      | (n, Some e) => (n, Some {| Num := s; Err := e |})
      end
  end.

End strconv.

(** ** Package fmt *)

Module fmt.

Definition digitChar (d : Z) : ascii := ascii_of_N (Z.to_N (48 + d)).

(** The digit loop of [fmtInteger] in base 10: the digits of [u] are written
    in front of [buf], the least significant first.  [width] bounds the
    number of digits; 20 are enough for every [uint64]. *)
Fixpoint fmtInteger (width : nat) (u : Z) (buf : list ascii) : list ascii :=
  match width with
  | O => buf
  | S w =>
      if 10 <=? u then
        let next := u / 10 in
        fmtInteger w next (digitChar (u - next * 10) :: buf)
      else digitChar u :: buf
  end.

(** [fmt.Sprintf("%d", u)] for [u] of type [uint64]. *)
Definition Sprintf_d (u : Z) : list ascii := fmtInteger 20 u [].

(** [fmt.Sprintf("%d=%d", a, b)] for [a] and [b] of type [uint64]. *)
Definition Sprintf_d_eq_d (a b : Z) : list ascii :=
  Sprintf_d a ++ "="%char :: Sprintf_d b.

End fmt.

(** ** Package api *)

Module api.

(** Modelled from the spec: package [api] (the declarations of [LogRange]
    and [LogRanges]) is not among the sources.  A shard has a tree
    identifier and a length, both unsigned 64-bit integers, and a
    shard-range description is the ordered sequence of its shards; these are
    the fields [Set] assigns and [String] reads. *)
Record LogRange := { TreeID : Z; TreeLength : Z }.

Record LogRanges := { Ranges : list LogRange }.

End api.

(** ** cmd/rekor-server/app/flags.go *)

Record LogRangesFlag := { Ranges : api.LogRanges }.

(** The errors [Set] returns: the two messages it formats itself and the
    [*strconv.NumError] of a failed conversion. *)
Inductive error :=
| ErrInvalidRangeFlag (r : list ascii)
| ErrNumError (e : strconv.NumError)
| ErrDuplicateTreeID (id : Z).

(** The first loop of [Set]: every range but the last is [treeID=length]. *)
Fixpoint parseRanges (ranges : list (list ascii)) (inputRanges : list api.LogRange)
  : error + list api.LogRange :=
  match ranges with
  | [] => inr inputRanges
  | r :: ranges' =>
      match strings.SplitN2 r "=" with
      | [s0; s1] =>
          match strconv.ParseUint s0 with
          | (_, Some e) => inl (ErrNumError e)
          | (treeID, None) =>
              match strconv.ParseUint s1 with
              | (_, Some e) => inl (ErrNumError e)
              | (treeLength, None) =>
                  parseRanges ranges'
                    (inputRanges ++ [{| api.TreeID := treeID; api.TreeLength := treeLength |}])
              end
          end
      | _ => inl (ErrInvalidRangeFlag r)
      end
  end.

(** The second loop of [Set]: look for duplicate tree ids, with the set
    [TreeIDs] of the ids seen so far. *)
Fixpoint findDuplicate (inputRanges : list api.LogRange) (TreeIDs : gset Z)
  : option error :=
  match inputRanges with
  | [] => None
  | lr :: rest =>
      if decide (api.TreeID lr ∈ TreeIDs) then Some (ErrDuplicateTreeID (api.TreeID lr))
      else findDuplicate rest ({[api.TreeID lr]} ∪ TreeIDs)
  end.

Definition emptyFlag : LogRangesFlag := {| Ranges := {| api.Ranges := [] |} |}.

(** [func (l *LogRangesFlag) Set(s string) error]: the receiver after the
    call and the error returned ([None] for [nil]).  [strings.Split] never
    returns an empty slice, so both slice expressions are in range. *)
Definition LogRangesFlag_Set (l : LogRangesFlag) (s : list ascii)
  : LogRangesFlag * option error :=
  let ranges := strings.Split s "," in
  let l := emptyFlag in
  match parseRanges (removelast ranges) [] with
  | inl e => (l, Some e)
  | inr inputRanges =>
      let lastRangeStr := List.last ranges [] in
      match strconv.ParseUint lastRangeStr with
      | (_, Some e) => (l, Some (ErrNumError e))
      | (lastTreeID, None) =>
          let inputRanges :=
            inputRanges ++ [{| api.TreeID := lastTreeID; api.TreeLength := 0 |}] in
          match findDuplicate inputRanges ∅ with
          | Some e => (l, Some e)
          | None => ({| Ranges := {| api.Ranges := inputRanges |} |}, None)
          end
      end
  end.

(** [func (l *LogRangesFlag) String() string]. *)
Definition LogRangesFlag_String (l : LogRangesFlag) : list ascii :=
  strings.Join
    ((fun r => fmt.Sprintf_d_eq_d (api.TreeID r) (api.TreeLength r))
       <$> api.Ranges (Ranges l))
    ",".

(** ** The shard-range text format, in the words of its description *)

(** A decimal digit. *)
Definition isDigit (c : ascii) : bool :=
  (48 <=? strconv.byteval c) && (strconv.byteval c <=? 57).

(** The number a sequence of decimal digits denotes, continuing from [n]. *)
Definition digitsValueFrom (s : list ascii) (n : Z) : Z :=
  fold_left (fun n c => n * 10 + (strconv.byteval c - 48)) s n.

Definition digitsValue (s : list ascii) : Z := digitsValueFrom s 0.

(** A decimal unsigned 64-bit integer: one digit at least, digits only, and
    a value that fits 64 bits. *)
Definition isDecimalUint64 (s : list ascii) : bool :=
  match s with
  | [] => false
  | _ => forallb isDigit s && (digitsValue s <=? strconv.maxUint64)
  end.

(** A description is the tokens [a=b] of its historical shards, here the
    pairs of [hist], followed by the bare token [act] of the active shard,
    all joined by commas. *)
Definition historicalToken (p : list ascii * list ascii) : list ascii :=
  p.1 ++ "="%char :: p.2.

Definition description (hist : list (list ascii * list ascii)) (act : list ascii)
  : list ascii :=
  strings.Join ((historicalToken <$> hist) ++ [act]) ",".

Definition historicalShard (p : list ascii * list ascii) : api.LogRange :=
  {| api.TreeID := digitsValue p.1; api.TreeLength := digitsValue p.2 |}.

Definition activeShard (act : list ascii) : api.LogRange :=
  {| api.TreeID := digitsValue act; api.TreeLength := 0 |}.

Definition shardsOf (hist : list (list ascii * list ascii)) (act : list ascii)
  : list api.LogRange :=
  (historicalShard <$> hist) ++ [activeShard act].

Definition decimalPair (p : list ascii * list ascii) : Prop :=
  isDecimalUint64 p.1 = true ∧ isDecimalUint64 p.2 = true.

(** The two kinds of failure of the description. *)
Definition isFormatError (e : error) : bool :=
  match e with
  | ErrInvalidRangeFlag _ | ErrNumError _ => true
  | ErrDuplicateTreeID _ => false
  end.

(** A number is written without leading zeros: a single digit, or a first
    digit other than zero. *)
Definition noLeadingZero (s : list ascii) : bool :=
  match s with
  | c :: _ :: _ => negb (Ascii.eqb c "0")
  | _ => true
  end.

(** The token [String] writes for a shard. *)
Definition renderShard (r : api.LogRange) : list ascii :=
  fmt.Sprintf_d_eq_d (api.TreeID r) (api.TreeLength r).

(** ** cmd/backfill-redis/main.go *)

(** Modelled from the spec: the generated packages [entries] and [models]
    (the response of [GetLogEntryByIndex] and its [LogEntryAnon]) are not
    among the sources.  A retrieval returns zero or more pairs of an entry
    identity and a raw entry, and a raw entry is base64 text.  The payload is
    a Go map from the UUID to the entry; it is given here as the sequence of
    its pairs in the order in which the [range] statement visits them, and
    the body of an entry is the text that the type assertion
    [entry.Body.(string)] reads (a body of another dynamic type is outside
    this description). *)
Definition Payload : Type := list (list ascii * list ascii).

(** The collaborators of the backfill: the log server behind [rekorClient],
    the entry codecs of package [types], and the Redis server behind
    [redisClient].  They are parameters of the loop.  [World] is the state
    of the servers: a call that reaches a server takes the state and gives
    the new one back.  An [error] value of Go is a [goerror]. *)
Class Collaborators := {
  World : Type;
  goerror : Type;
  ProposedEntry : Type;
  EntryImpl : Type;
  (** [rekorClient.Entries.GetLogEntryByIndex(params)], for the log index of
      [params]. *)
  GetLogEntryByIndex : Z → World → (goerror + Payload) * World;
  (** [base64.StdEncoding.DecodeString]. *)
  DecodeString : list ascii → goerror + list ascii;
  (** [models.UnmarshalProposedEntry] with the JSON consumer. *)
  UnmarshalProposedEntry : list ascii → goerror + ProposedEntry;
  (** [types.UnmarshalEntry]. *)
  UnmarshalEntry : ProposedEntry → goerror + EntryImpl;
  Kind : ProposedEntry → list ascii;
  APIVersion : EntryImpl → list ascii;
  (** The method [IndexKeys] of an entry. *)
  IndexKeys : EntryImpl → World → (goerror + list (list ascii)) * World;
  (** [redisClient.Do(ctx, radix.Cmd(nil, "LPUSH", key, value))]. *)
  LPUSH : list ascii → list ascii → World → option goerror * World;
}.

(** The process is alive, or it has left through [log.Fatalf]. *)
Inductive status := Alive | Exited.

(** [i++] on an [int] of 64 bits wraps around. *)
Definition wrapInt (z : Z) : Z := (z + 2 ^ 63) mod 2 ^ 64 - 2 ^ 63.

Section Backfill.
Context `{Collaborators}.

(** What the process does that the outside sees, in order: its calls to
    the two servers, the lines it prints (one constructor for each format
    string), and the fatal exit. *)
Inductive event :=
| CallGetLogEntryByIndex (i : Z)
| CallLPUSH (key value : list ascii)
| PrintErrorUnmarshalling (uuid : list ascii) (err : goerror)
| PrintErrorBuildingIndexKeys (uuid : list ascii) (err : goerror)
| PrintErrorInserting (uuid key : list ascii) (err : goerror)
| PrintUploaded (uuid : list ascii) (i : Z) (key : list ascii)
| PrintCompleted (i : Z)
| PrintErrors (i : Z)
| LogFatalf (err : goerror).

(** A computation that talks to the servers and leaves a trace. *)
Definition M (A : Type) : Type := World → A * World * list event.

Definition ret {A} (a : A) : M A := fun w => (a, w, []).

Definition bind {A B} (m : M A) (f : A → M B) : M B :=
  fun w =>
    let '(a, w1, t1) := m w in
    let '(b, w2, t2) := f a w1 in
    (b, w2, t1 ++ t2).

Definition Printf (e : event) : M unit := fun w => (tt, w, [e]).

(** A call to a server, recorded in the trace. *)
Definition call {A} (e : event) (f : World → A * World) : M A :=
  fun w => let '(a, w') := f w in (a, w', [e]).

(** A method call on a value, which may reach a server. *)
Definition method {A} (f : World → A * World) : M A :=
  fun w => let '(a, w') := f w in (a, w', []).

Notation "x <- m ;; k" := (bind m (fun x => k))
  (at level 20, m at level 99, k at level 200, only parsing).
Notation "m ;;; k" := (bind m (fun _ => k))
  (at level 20, k at level 200, only parsing).

(** [unmarshalEntryImpl]: the entry, its kind and its version, or the
    error. *)
Definition unmarshalEntryImpl (e : list ascii)
  : goerror + (EntryImpl * list ascii * list ascii) :=
  match DecodeString e with
  | inl err => inl err
  | inr b =>
      match UnmarshalProposedEntry b with
      | inl err => inl err
      | inr pe =>
          match UnmarshalEntry pe with
          | inl err => inl err
          | inr entry => inr (entry, Kind pe, APIVersion entry)
          end
      end
  end.

(** [addToIndex]. *)
Definition addToIndex (key value : list ascii) : M (option goerror) :=
  call (CallLPUSH key value) (LPUSH key value).

(** The loop over the keys of one entry, lines 106 to 112. *)
Fixpoint keysLoop (i : Z) (uuid : list ascii) (keys : list (list ascii))
    (success : bool) : M bool :=
  match keys with
  | [] => ret success
  | key :: keys' =>
      err <- addToIndex key uuid ;;
      success <- match err with
                 | Some err =>
                     Printf (PrintErrorInserting uuid key err) ;;; ret false
                 | None => ret success
                 end ;;
      Printf (PrintUploaded uuid i key) ;;;
      keysLoop i uuid keys' success
  end.

(** The loop over the pairs of one response, lines 92 to 113. *)
Fixpoint payloadLoop (i : Z) (payload : Payload) (success : bool) : M bool :=
  match payload with
  | [] => ret success
  | (uuid, body) :: payload' =>
      match unmarshalEntryImpl body with
      | inl err =>
          Printf (PrintErrorUnmarshalling uuid err) ;;;
          payloadLoop i payload' false
      | inr (e, _, _) =>
          keys <- method (IndexKeys e) ;;
          match keys with
          | inl err =>
              Printf (PrintErrorBuildingIndexKeys uuid err) ;;;
              payloadLoop i payload' false
          | inr keys =>
              success <- keysLoop i uuid keys success ;;
              payloadLoop i payload' success
          end
      end
  end.

(** The body of the loop over the indices, lines 85 to 118. *)
Definition iteration (i : Z) : M status :=
  resp <- call (CallGetLogEntryByIndex i) (GetLogEntryByIndex i) ;;
  match resp with
  | inl err => Printf (LogFatalf err) ;;; ret Exited
  | inr payload =>
      success <- payloadLoop i payload true ;;
      Printf (if success then PrintCompleted i else PrintErrors i) ;;;
      ret Alive
  end.

(** The loop over the indices, line 84: [for i := *startIndex; i <=
    *endIndex; i++].  The loop has no bound of its own (with the largest
    [int] as [endIndex] nothing but a fatal exit ends it), so the
    embedding counts its iterations down from [fuel] and gives [None]
    when they are used up. *)
Fixpoint indexLoop (fuel : nat) (i endIndex : Z) (w : World)
  : option (status * World * list event) :=
  match fuel with
  | O => None
  | S fuel' =>
      if i <=? endIndex then
        match iteration i w with
        | (Exited, w1, t1) => Some (Exited, w1, t1)
        | (Alive, w1, t1) =>
            match indexLoop fuel' (wrapInt (i + 1)) endIndex w1 with
            | Some (s, w2, t2) => Some (s, w2, t1 ++ t2)
            | None => None
            end
        end
      else Some (Alive, w, [])
  end.

(** The lines that record a failure of a decode, of a key extraction or of
    a write. *)
Definition isFailure (e : event) : bool :=
  match e with
  | PrintErrorUnmarshalling _ _ | PrintErrorBuildingIndexKeys _ _
  | PrintErrorInserting _ _ _ => true
  | _ => false
  end.


(** The events of an entry: the writes and the lines about the entry. *)
Definition perEntry (e : event) : bool :=
  match e with
  | CallLPUSH _ _ | PrintErrorUnmarshalling _ _ | PrintErrorBuildingIndexKeys _ _
  | PrintErrorInserting _ _ _ | PrintUploaded _ _ _ => true
  | _ => false
  end.

Definition noFailure (t : list event) : bool :=
  forallb (fun e => negb (isFailure e)) t.



(** The writes attempted in a trace, as (key, value), and the writes it
    reports as uploaded, as (uuid, index, key). *)
Definition writesOf (t : list event) : list (list ascii * list ascii) :=
  omap (fun e => match e with CallLPUSH k v => Some (k, v) | _ => None end) t.

Definition uploadedOf (t : list event) : list (list ascii * Z * list ascii) :=
  omap (fun e => match e with PrintUploaded u i k => Some (u, i, k) | _ => None end) t.
End Backfill.

(** A small deployment to run the loop on.  The Redis server keeps the
    pushes it accepted and refuses the key [full]; the log has no entry at
    index 0, two entries at index 1 (the body of the first is not base64, the
    second has the keys [a] and [b]), one entry with the key [full] at index
    2, and cannot be reached for index 3.  The body of an entry is, for
    short, the list of its keys. *)
Definition testbed : Collaborators := {|
  World := list (list ascii * list ascii);
  goerror := list ascii;
  ProposedEntry := list ascii;
  EntryImpl := list ascii;
  GetLogEntryByIndex i w :=
    (if i =? 1 then inr [(str "u1", str "!"); (str "u2", str "a,b")]
     else if i =? 2 then inr [(str "u3", str "full")]
     else if i =? 3 then inl (str "connection refused")
     else inr [],
     w);
  DecodeString s :=
    if bool_decide (s = str "!") then inl (str "illegal base64 data") else inr s;
  UnmarshalProposedEntry b := inr b;
  UnmarshalEntry pe := inr pe;
  Kind _ := str "rekord";
  APIVersion _ := str "0.0.1";
  IndexKeys e w := (inr (strings.Split e ","), w);
  LPUSH key value w :=
    if bool_decide (key = str "full") then (Some (str "OOM"), w)
    else (None, (key, value) :: w);
|}.

(** ** The rest of cmd/backfill-redis/main.go: the flags and the setup *)

(** The flags of the command as [flag.Parse] leaves them: the empty string
    and -1 are the defaults of the flags that were not given. *)
Record Flags := {
  redisAddress : list ascii;
  redisPort : list ascii;
  startIndex : Z;
  endIndex : Z;
  rekorAddress : list ascii;
}.

(** The two clients [main] creates, parameters as the collaborators are:
    [cfg.New(ctx, "tcp", address)] of a [radix.PoolConfig], which connects
    to the Redis server, and [client.GetRekorClient(rekorAddress)]; each
    gives the error it returns ([None] for [nil]). *)
Class Connections (C : Collaborators) := {
  PoolConfig_New : list ascii → @World C → option (@goerror C) * @World C;
  GetRekorClient : list ascii → @World C → option (@goerror C) * @World C;
}.

Section Main.
Context {C : Collaborators} {Conn : Connections C}.

(** The log indices of the retrievals of a trace, and those of its outcome
    lines, in order. *)
Definition retrievalsOf (t : list event) : list Z :=
  omap (fun e => match e with CallGetLogEntryByIndex i => Some i | _ => None end) t.

Definition outcomesOf (t : list event) : list Z :=
  omap (fun e => match e with
                 | PrintCompleted i | PrintErrors i => Some i
                 | _ => None
                 end) t.

(** What [main] does that the outside sees: the fatal messages of the setup,
    the creation of the two clients, and the events of the loop. *)
Inductive mainEvent :=
| LogFatal (msg : list ascii)
| CallPoolConfigNew (network address : list ascii)
| LogFatalError (err : goerror)
| CallGetRekorClient (address : list ascii)
| LogFatalfCreatingClient (err : goerror)
| InLoop (e : event).

(** The events of the loop of a trace of [main]. *)
Definition loopEvents (t : list mainEvent) : list event :=
  omap (fun e => match e with InLoop e => Some e | _ => None end) t.

(** [func main()], lines 54 to 120, on the flags [f]; [fuel] bounds the
    turns of the loop over the indices as in [indexLoop]. *)
Definition main (fuel : nat) (f : Flags) (w : World)
  : option (status * World * list mainEvent) :=
  match redisAddress f with
  | [] => Some (Exited, w, [LogFatal (str "address must be set")])
  | _ =>
  match redisPort f with
  | [] => Some (Exited, w, [LogFatal (str "port must be set")])
  | _ =>
  if startIndex f =? -1 then
    Some (Exited, w, [LogFatal (str "start must be set to >=0")])
  else if endIndex f =? -1 then
    Some (Exited, w, [LogFatal (str "end must be set to >=0")])
  else
  match rekorAddress f with
  | [] => Some (Exited, w, [LogFatal (str "rekor-address must be set")])
  | _ =>
      let address := redisAddress f ++ ":"%char :: redisPort f in
      let '(err, w1) := PoolConfig_New address w in
      let t1 := [CallPoolConfigNew (str "tcp") address] in
      match err with
      | Some err => Some (Exited, w1, t1 ++ [LogFatalError err])
      | None =>
          let '(err, w2) := GetRekorClient (rekorAddress f) w1 in
          let t2 := t1 ++ [CallGetRekorClient (rekorAddress f)] in
          match err with
          | Some err => Some (Exited, w2, t2 ++ [LogFatalfCreatingClient err])
          | None =>
              match indexLoop fuel (startIndex f) (endIndex f) w2 with
              | Some (s, w3, t3) => Some (s, w3, t2 ++ (InLoop <$> t3))
              | None => None
              end
          end
      end
  end
  end
  end.
End Main.

(** The clients of the testbed: the Redis server is at [redis:6379] and
    nowhere else, and the address of the log must start with [http]. *)
Definition testbedConnections : Connections testbed :=
  Build_Connections testbed
    (fun address (w : list (list ascii * list ascii)) =>
       (if bool_decide (address = str "redis:6379") then None
        else Some (str "dial tcp: connection refused"), w))
    (fun address (w : list (list ascii * list ascii)) =>
       (if bool_decide (take 4 address = str "http") then None
        else Some (str "unsupported protocol scheme"), w)).

(** ** Splitting and joining *)

Section SplitJoin.
Variable sep : ascii.

Lemma Split_not_nil s : strings.Split s sep ≠ [].
Proof.
  destruct s as [|c s]; simpl; [done|].
  destruct (Ascii.eqb c sep); [done|].
  destruct (strings.Split s sep); done.
Qed.

Lemma Split_no_sep s : sep ∉ s → strings.Split s sep = [s].
Proof.
  induction s as [|c s IH]; simpl; intros Hs; [done|].
  destruct (Ascii.eqb_spec c sep) as [->|Hne].
  - exfalso. apply Hs. left.
  - rewrite IH; [done|]. intros H. apply Hs. by right.
Qed.

Lemma Split_app_sep a s :
  sep ∉ a → strings.Split (a ++ sep :: s) sep = a :: strings.Split s sep.
Proof.
  induction a as [|c a IH]; simpl; intros Ha.
  - by rewrite Ascii.eqb_refl.
  - destruct (Ascii.eqb_spec c sep) as [->|Hne].
    + exfalso. apply Ha. left.
    + rewrite IH; [done|]. intros H. apply Ha. by right.
Qed.

(** Splitting a joined sequence gives the sequence back, when no element
    holds the separator. *)
Lemma Split_Join (ts : list (list ascii)) :
  ts ≠ [] → Forall (fun t => sep ∉ t) ts →
  strings.Split (strings.Join ts sep) sep = ts.
Proof.
  induction ts as [|t ts IH]; intros Hne Hts; [done|].
  apply Forall_cons in Hts as [Ht Hts].
  destruct ts as [|t' ts].
  - simpl. by apply Split_no_sep.
  - change (strings.Join (t :: t' :: ts) sep)
      with (t ++ sep :: strings.Join (t' :: ts) sep).
    rewrite Split_app_sep by done. by rewrite IH.
Qed.

Lemma SplitN2_no_sep s : sep ∉ s → strings.SplitN2 s sep = [s].
Proof.
  induction s as [|c s IH]; simpl; intros Hs; [done|].
  destruct (Ascii.eqb_spec c sep) as [->|Hne].
  - exfalso. apply Hs. left.
  - rewrite IH; [done|]. intros H. apply Hs. by right.
Qed.

Lemma SplitN2_app_sep a b :
  sep ∉ a → strings.SplitN2 (a ++ sep :: b) sep = [a; b].
Proof.
  induction a as [|c a IH]; simpl; intros Ha.
  - by rewrite Ascii.eqb_refl.
  - destruct (Ascii.eqb_spec c sep) as [->|Hne].
    + exfalso. apply Ha. left.
    + rewrite IH; [done|]. intros H. apply Ha. by right.
Qed.

(** [SplitN2] cuts at the first separator, and nowhere else. *)
Lemma SplitN2_inv s a b :
  strings.SplitN2 s sep = [a; b] → s = a ++ sep :: b ∧ sep ∉ a.
Proof.
  revert a. induction s as [|c s IH]; simpl; intros a H; [done|].
  destruct (Ascii.eqb_spec c sep) as [->|Hne].
  - injection H as <- <-. split; [done|]. apply not_elem_of_nil.
  - destruct (strings.SplitN2 s sep) as [|t [|t' [|? ?]]] eqn:E; try done.
    injection H as <- <-.
    destruct (IH t eq_refl) as [-> Ht]. split; [done|].
    intros [?|?]%elem_of_cons; congruence.
Qed.

Lemma SplitN2_not_nil s : strings.SplitN2 s sep ≠ [].
Proof.
  destruct s as [|c s]; simpl; [done|].
  destruct (Ascii.eqb c sep); [done|].
  destruct (strings.SplitN2 s sep); done.
Qed.

Lemma SplitN2_one s a : strings.SplitN2 s sep = [a] → sep ∉ s.
Proof.
  revert a. induction s as [|c s IH]; simpl; intros a H; [apply not_elem_of_nil|].
  destruct (Ascii.eqb_spec c sep) as [->|Hne]; [done|].
  pose proof (SplitN2_not_nil s) as Hnn.
  destruct (strings.SplitN2 s sep) as [|t [|t' ?]] eqn:E; try done.
  intros [?|?]%elem_of_cons; [congruence|]. by eapply IH.
Qed.

Lemma SplitN2_length s :
  length (strings.SplitN2 s sep) = 1%nat ∨ length (strings.SplitN2 s sep) = 2%nat.
Proof.
  induction s as [|c s IH]; simpl; [by left|].
  destruct (Ascii.eqb c sep); [by right|].
  destruct (strings.SplitN2 s sep); simpl in *; [by left|done].
Qed.
End SplitJoin.

(** ** Conversions between digits and numbers *)

Lemma maxUint64_eq : strconv.maxUint64 = 18446744073709551615.
Proof. reflexivity. Qed.

Lemma cutoff_eq : strconv.cutoff = 1844674407370955162.
Proof. reflexivity. Qed.

Lemma byteval_range c : 0 ≤ strconv.byteval c < 256.
Proof.
  unfold strconv.byteval. pose proof (N_ascii_bounded c). lia.
Qed.

Lemma byteval_inj c1 c2 : strconv.byteval c1 = strconv.byteval c2 → c1 = c2.
Proof.
  unfold strconv.byteval. intros H%(inj Z.of_N).
  rewrite <- (ascii_N_embedding c1), <- (ascii_N_embedding c2). by rewrite H.
Qed.

Lemma isDigit_digitOf c :
  isDigit c = true →
  strconv.digitOf c = Some (strconv.byteval c - 48) ∧ 0 ≤ strconv.byteval c - 48 < 10.
Proof.
  unfold isDigit, strconv.digitOf. intros H. rewrite H.
  apply andb_true_iff in H as [?%Z.leb_le ?%Z.leb_le]. split; [done|lia].
Qed.

Lemma digitOf_below_10 c d :
  strconv.digitOf c = Some d → d < 10 →
  isDigit c = true ∧ d = strconv.byteval c - 48.
Proof.
  unfold strconv.digitOf. cbv zeta.
  change ((48 <=? strconv.byteval c) && (strconv.byteval c <=? 57)) with (isDigit c).
  destruct (isDigit c) eqn:E1; [by intros [= <-] _|].
  destruct (_ && _) eqn:E2; [|done].
  apply andb_true_iff in E2 as [?%Z.leb_le ?%Z.leb_le]. intros [= <-]. lia.
Qed.

Lemma isDigit_not_comma c : isDigit c = true → c ≠ ","%char.
Proof. intros H ->. vm_compute in H. done. Qed.

Lemma isDigit_not_eq c : isDigit c = true → c ≠ "="%char.
Proof. intros H ->. vm_compute in H. done. Qed.

Lemma digits_no_char (c : ascii) s :
  isDigit c = false → forallb isDigit s = true → c ∉ s.
Proof.
  intros Hc Hs Hin. apply forallb_forall with (x := c) in Hs; [congruence|].
  by apply list_elem_of_In.
Qed.

Lemma digitsValueFrom_app s1 s2 n :
  digitsValueFrom (s1 ++ s2) n = digitsValueFrom s2 (digitsValueFrom s1 n).
Proof. apply fold_left_app. Qed.

Lemma digitsValueFrom_ge s n :
  0 ≤ n → forallb isDigit s = true → n ≤ digitsValueFrom s n.
Proof.
  revert n. induction s as [|c s IH]; simpl; intros n Hn Hs; [done|].
  apply andb_true_iff in Hs as [Hc Hs].
  destruct (isDigit_digitOf c Hc) as [_ Hd].
  etrans; [|apply IH]; [lia|lia|done].
Qed.

(** The loop of [ParseUint] computes the value of a digit sequence that
    fits 64 bits. *)
Lemma ParseUint_loop_ok s n :
  0 ≤ n → forallb isDigit s = true → digitsValueFrom s n ≤ strconv.maxUint64 →
  strconv.ParseUint_loop s n = (digitsValueFrom s n, None).
Proof.
  revert n. induction s as [|c s IH]; simpl; intros n Hn Hs Hv; [done|].
  apply andb_true_iff in Hs as [Hc Hs].
  destruct (isDigit_digitOf c Hc) as [-> Hd].
  set (d := strconv.byteval c - 48) in *.
  assert (n * 10 + d ≤ strconv.maxUint64) as Hle.
  { etrans; [|apply Hv]. apply digitsValueFrom_ge; [lia|done]. }
  rewrite maxUint64_eq in Hle.
  destruct (Z.leb_spec 10 d); [lia|].
  rewrite cutoff_eq. destruct (Z.leb_spec 1844674407370955162 n); [lia|].
  unfold strconv.wrap64.
  rewrite (Z.mod_small (n * 10)) by lia.
  rewrite (Z.mod_small (n * 10 + d)) by lia.
  destruct (Z.ltb_spec (n * 10 + d) (n * 10)); [lia|].
  rewrite maxUint64_eq.
  destruct (Z.ltb_spec 18446744073709551615 (n * 10 + d)); [lia|].
  simpl. apply IH; [lia|done|done].
Qed.

(** Conversely the loop accepts nothing else. *)
Lemma ParseUint_loop_inv s n m :
  0 ≤ n ≤ strconv.maxUint64 →
  strconv.ParseUint_loop s n = (m, None) →
  forallb isDigit s = true ∧ m = digitsValueFrom s n ∧ 0 ≤ m ≤ strconv.maxUint64.
Proof.
  revert n. induction s as [|c s IH]; simpl; intros n Hn H.
  { injection H as <-. done. }
  destruct (strconv.digitOf c) as [d|] eqn:Ed; [|done].
  destruct (Z.leb_spec 10 d); [done|].
  destruct (digitOf_below_10 c d Ed) as [Hc ->]; [done|].
  destruct (isDigit_digitOf c Hc) as [_ Hd].
  set (d := strconv.byteval c - 48) in *.
  rewrite cutoff_eq in H. rewrite maxUint64_eq in *.
  destruct (Z.leb_spec 1844674407370955162 n); [done|].
  unfold strconv.wrap64 in H.
  rewrite (Z.mod_small (n * 10)) in H by lia.
  destruct (Z.ltb_spec ((n * 10 + d) mod 2 ^ 64) (n * 10)); [done|].
  destruct (Z.ltb_spec 18446744073709551615 ((n * 10 + d) mod 2 ^ 64)); [done|].
  simpl in H.
  assert (n * 10 + d < 2 ^ 64) as Hlt.
  { destruct (Z.lt_ge_cases (n * 10 + d) (2 ^ 64)) as [|Hge]; [done|].
    assert ((n * 10 + d) mod 2 ^ 64 = n * 10 + d - 2 ^ 64) as Heq.
    { symmetry. apply Z.mod_unique with (q := 1); lia. }
    lia. }
  rewrite (Z.mod_small (n * 10 + d)) in H by lia.
  rewrite Hc. apply IH in H; [|lia]. done.
Qed.

Lemma ParseUint_ok s :
  isDecimalUint64 s = true → strconv.ParseUint s = (digitsValue s, None).
Proof.
  unfold isDecimalUint64, strconv.ParseUint, digitsValue.
  destruct s as [|c s]; [done|].
  intros [Hs Hv%Z.leb_le]%andb_true_iff.
  by rewrite ParseUint_loop_ok.
Qed.

Lemma ParseUint_inv s m :
  strconv.ParseUint s = (m, None) →
  isDecimalUint64 s = true ∧ m = digitsValue s ∧ 0 ≤ m ≤ strconv.maxUint64.
Proof.
  unfold isDecimalUint64, strconv.ParseUint, digitsValue.
  destruct s as [|c s]; [done|].
  destruct (strconv.ParseUint_loop (c :: s) 0) as [n [e|]] eqn:E; [done|].
  intros [= <-]. apply ParseUint_loop_inv in E as (Hs & -> & Hr); [|done].
  rewrite Hs. split; [|done]. apply andb_true_iff. split; [done|]. apply Z.leb_le, Hr.
Qed.

(** [ParseUint] accepts the decimal unsigned 64-bit integers and fails with
    a [NumError] on everything else. *)
Lemma ParseUint_fails s :
  isDecimalUint64 s = false → ∃ n e, strconv.ParseUint s = (n, Some e).
Proof.
  intros Hs. destruct (strconv.ParseUint s) as [n [e|]] eqn:E; [by eauto|].
  apply ParseUint_inv in E as [? _]. congruence.
Qed.

Lemma isDecimalUint64_digits s :
  isDecimalUint64 s = true → forallb isDigit s = true.
Proof.
  destruct s; [done|]. unfold isDecimalUint64. by intros [? _]%andb_true_iff.
Qed.

Lemma isDecimalUint64_range s :
  isDecimalUint64 s = true → 0 ≤ digitsValue s ≤ strconv.maxUint64.
Proof.
  intros H. pose proof (ParseUint_ok s H) as Hp.
  by apply ParseUint_inv in Hp as (_ & _ & ?).
Qed.

Lemma byteval_digitChar d : 0 ≤ d < 10 → strconv.byteval (fmt.digitChar d) = 48 + d.
Proof.
  intros Hd. unfold strconv.byteval, fmt.digitChar.
  rewrite N_ascii_embedding by lia. lia.
Qed.

Lemma isDigit_digitChar d : 0 ≤ d < 10 → isDigit (fmt.digitChar d) = true.
Proof.
  intros Hd. unfold isDigit. rewrite byteval_digitChar by done.
  apply andb_true_iff. split; apply Z.leb_le; lia.
Qed.

Lemma fmtInteger_app w u buf :
  fmt.fmtInteger w u buf = fmt.fmtInteger w u [] ++ buf.
Proof.
  revert u buf. induction w as [|w IH]; simpl; intros u buf; [done|].
  destruct (10 <=? u); [|done].
  rewrite IH, (IH _ [_]), <- app_assoc. done.
Qed.

Lemma fmtInteger_not_nil w u : fmt.fmtInteger (S w) u [] ≠ [].
Proof.
  simpl. destruct (10 <=? u); [|done].
  rewrite fmtInteger_app. by destruct (fmt.fmtInteger w (u / 10) []).
Qed.

Lemma fmtInteger_digits w u :
  0 ≤ u → forallb isDigit (fmt.fmtInteger w u []) = true.
Proof.
  revert u. induction w as [|w IH]; simpl; intros u Hu; [done|].
  destruct (Z.leb_spec 10 u).
  - rewrite fmtInteger_app, forallb_app, IH by (apply Z.div_pos; lia).
    simpl. rewrite isDigit_digitChar; [done|].
    pose proof (Z.mod_pos_bound u 10). pose proof (Z.div_mod u 10). lia.
  - simpl. rewrite isDigit_digitChar; [done|lia].
Qed.

Lemma fmtInteger_value w u :
  0 ≤ u < 10 ^ Z.of_nat w → digitsValue (fmt.fmtInteger w u []) = u.
Proof.
  unfold digitsValue.
  revert u. induction w as [|w IH]; intros u Hu.
  { simpl in *. lia. }
  rewrite Nat2Z.inj_succ, Z.pow_succ_r in Hu by lia. simpl.
  pose proof (Z.mod_pos_bound u 10). pose proof (Z.div_mod u 10).
  destruct (Z.leb_spec 10 u).
  - rewrite fmtInteger_app, digitsValueFrom_app, IH.
    + simpl. rewrite byteval_digitChar; lia.
    + split; [apply Z.div_pos; lia|]. apply Z.div_lt_upper_bound; lia.
  - simpl. rewrite byteval_digitChar; lia.
Qed.

(** [%d] writes a [uint64] as a decimal unsigned 64-bit integer, and
    [ParseUint] reads the same number back. *)
Lemma Sprintf_d_decimal u :
  0 ≤ u ≤ strconv.maxUint64 →
  isDecimalUint64 (fmt.Sprintf_d u) = true ∧ digitsValue (fmt.Sprintf_d u) = u.
Proof.
  intros Hu. rewrite maxUint64_eq in Hu.
  assert (digitsValue (fmt.Sprintf_d u) = u) as Hv.
  { apply fmtInteger_value. change (10 ^ Z.of_nat 20) with 100000000000000000000. lia. }
  split; [|done].
  pose proof (fmtInteger_not_nil 19 u) as Hnn.
  pose proof (fmtInteger_digits 20 u (proj1 Hu)) as Hds.
  change (fmt.fmtInteger 20 u []) with (fmt.Sprintf_d u) in Hnn, Hds.
  unfold isDecimalUint64. rewrite Hds, Hv.
  destruct (fmt.Sprintf_d u); [done|].
  apply Z.leb_le. rewrite maxUint64_eq. lia.
Qed.

Lemma ParseUint_Sprintf_d u :
  0 ≤ u ≤ strconv.maxUint64 → strconv.ParseUint (fmt.Sprintf_d u) = (u, None).
Proof.
  intros Hu. destruct (Sprintf_d_decimal u Hu) as [Hd Hv].
  by rewrite ParseUint_ok, Hv.
Qed.

Lemma Sprintf_d_digits u : 0 ≤ u → forallb isDigit (fmt.Sprintf_d u) = true.
Proof. apply fmtInteger_digits. Qed.

(** ** The two loops of [Set] *)

Lemma historicalToken_SplitN2 p :
  forallb isDigit p.1 = true →
  strings.SplitN2 (historicalToken p) "=" = [p.1; p.2].
Proof.
  intros H. apply SplitN2_app_sep, digits_no_char; done.
Qed.

Lemma parseRanges_ok hist acc :
  Forall decimalPair hist →
  parseRanges (historicalToken <$> hist) acc = inr (acc ++ (historicalShard <$> hist)).
Proof.
  revert acc. induction hist as [|p hist IH]; intros acc Hh.
  { simpl. by rewrite app_nil_r. }
  apply Forall_cons in Hh as [[H1 H2] Hh].
  rewrite fmap_cons. simpl.
  rewrite historicalToken_SplitN2 by by apply isDecimalUint64_digits.
  rewrite (ParseUint_ok _ H1), (ParseUint_ok _ H2), IH, <- app_assoc by done.
  done.
Qed.

(** The first loop fails with a format error only. *)
Lemma parseRanges_inl ts acc e :
  parseRanges ts acc = inl e → isFormatError e = true.
Proof.
  revert acc. induction ts as [|t ts IH]; simpl; intros acc H; [done|].
  destruct (strings.SplitN2 t "=") as [|s0 [|s1 [|? ?]]]; try by injection H as <-.
  destruct (strconv.ParseUint s0) as [? [?|]]; [by injection H as <-|].
  destruct (strconv.ParseUint s1) as [? [?|]]; [by injection H as <-|].
  by eapply IH.
Qed.

(** When the first loop succeeds, every range it read was [a=b] with [a] and
    [b] decimal unsigned 64-bit integers. *)
Lemma parseRanges_inr ts acc rs :
  parseRanges ts acc = inr rs →
  ∃ hist, ts = historicalToken <$> hist ∧ Forall decimalPair hist
          ∧ rs = acc ++ (historicalShard <$> hist).
Proof.
  revert acc. induction ts as [|t ts IH]; simpl; intros acc H.
  { injection H as <-. exists []. by rewrite app_nil_r. }
  destruct (strings.SplitN2 t "=") as [|s0 [|s1 [|? ?]]] eqn:Et; try done.
  destruct (strconv.ParseUint s0) as [a [?|]] eqn:E0; [done|].
  destruct (strconv.ParseUint s1) as [b [?|]] eqn:E1; [done|].
  apply SplitN2_inv in Et as [-> _].
  apply ParseUint_inv in E0 as (H0 & -> & _).
  apply ParseUint_inv in E1 as (H1 & -> & _).
  apply IH in H as (hist & -> & Hh & ->).
  exists ((s0, s1) :: hist). split; [done|]. split.
  - by apply Forall_cons.
  - by rewrite <- app_assoc.
Qed.

Lemma findDuplicate_None rs (TreeIDs : gset Z) :
  NoDup (api.TreeID <$> rs) →
  (∀ x, x ∈ api.TreeID <$> rs → x ∉ TreeIDs) →
  findDuplicate rs TreeIDs = None.
Proof.
  revert TreeIDs. induction rs as [|lr rs IH]; intros seen Hnd Hdisj; [done|].
  rewrite fmap_cons in Hnd, Hdisj. apply NoDup_cons in Hnd as [Hlr Hnd]. simpl.
  destruct (decide (api.TreeID lr ∈ seen)) as [Hin|_].
  { exfalso. by apply (Hdisj (api.TreeID lr)); [left|]. }
  apply IH; [done|]. intros x Hx [->%elem_of_singleton|Hs]%elem_of_union; [done|].
  by apply (Hdisj x); [right|].
Qed.

Lemma findDuplicate_None_inv rs (TreeIDs : gset Z) :
  findDuplicate rs TreeIDs = None →
  NoDup (api.TreeID <$> rs) ∧ ∀ x, x ∈ api.TreeID <$> rs → x ∉ TreeIDs.
Proof.
  revert TreeIDs. induction rs as [|lr rs IH]; intros seen H.
  { split; [constructor|]. intros x Hx. by apply elem_of_nil in Hx. }
  simpl in H. destruct (decide (api.TreeID lr ∈ seen)) as [|Hlr]; [done|].
  apply IH in H as [Hnd Hdisj]. rewrite fmap_cons. split.
  - apply NoDup_cons. split; [|done]. intros Hin. apply (Hdisj _ Hin).
    apply elem_of_union. left. by apply elem_of_singleton.
  - intros x [->|Hx]%elem_of_cons; [done|]. intros Hs. apply (Hdisj _ Hx).
    apply elem_of_union. by right.
Qed.

(** The second loop stops at the first tree id that was met before. *)
Lemma findDuplicate_first rs (TreeIDs : gset Z) l1 d l2 :
  api.TreeID <$> rs = l1 ++ d :: l2 →
  NoDup l1 → (∀ x, x ∈ l1 → x ∉ TreeIDs) → d ∈ l1 ∨ d ∈ TreeIDs →
  findDuplicate rs TreeIDs = Some (ErrDuplicateTreeID d).
Proof.
  revert TreeIDs l1. induction rs as [|lr rs IH]; intros seen l1 Heq Hnd Hdisj Hd.
  { by destruct l1. }
  rewrite fmap_cons in Heq. simpl. destruct l1 as [|x l1]; simpl in Heq.
  - injection Heq as -> Heq. destruct Hd as [Hd|Hd]; [by apply elem_of_nil in Hd|].
    by rewrite decide_True.
  - injection Heq as -> Heq. apply NoDup_cons in Hnd as [Hx Hnd].
    rewrite decide_False by (apply Hdisj; left).
    apply (IH _ l1); [done|done| |].
    + intros y Hy [->%elem_of_singleton|Hs]%elem_of_union; [done|].
      by apply (Hdisj y); [right|].
    + destruct Hd as [[->|Hd]%elem_of_cons|Hd]; [right|by left|right];
        apply elem_of_union; [left; by apply elem_of_singleton|by right].
Qed.

Lemma findDuplicate_Some rs (TreeIDs : gset Z) e :
  findDuplicate rs TreeIDs = Some e → isFormatError e = false.
Proof.
  revert TreeIDs. induction rs as [|lr rs IH]; simpl; intros seen H; [done|].
  destruct (decide (api.TreeID lr ∈ seen)); [by injection H as <-|by eapply IH].
Qed.

(** ** Descriptions and their tokens *)

Lemma Join_Split s sep : strings.Join (strings.Split s sep) sep = s.
Proof.
  induction s as [|c s IH]; simpl; [done|].
  pose proof (Split_not_nil sep s) as Hnn.
  destruct (Ascii.eqb_spec c sep) as [->|Hne].
  - destruct (strings.Split s sep) as [|t ts] eqn:E; [done|].
    change (strings.Join ([] :: t :: ts) sep) with (sep :: strings.Join (t :: ts) sep).
    by rewrite IH.
  - destruct (strings.Split s sep) as [|t ts] eqn:E; [done|].
    destruct ts as [|t' ts]; simpl in *; by rewrite <- IH.
Qed.

Lemma historicalToken_no_comma p : decimalPair p → ","%char ∉ historicalToken p.
Proof.
  intros [H1%isDecimalUint64_digits H2%isDecimalUint64_digits].
  unfold historicalToken. intros [Hin|[Hin|Hin]%elem_of_cons]%elem_of_app.
  - by apply (digits_no_char ","%char p.1).
  - done.
  - by apply (digits_no_char ","%char p.2).
Qed.

Lemma description_Split hist act :
  Forall decimalPair hist → ","%char ∉ act →
  strings.Split (description hist act) "," = (historicalToken <$> hist) ++ [act].
Proof.
  intros Hh Ha. apply Split_Join.
  - by destruct (historicalToken <$> hist).
  - apply Forall_app. split; [|by apply Forall_singleton].
    apply Forall_fmap. eapply Forall_impl; [done|]. apply historicalToken_no_comma.
Qed.

Lemma removelast_snoc {A} (l : list A) x : removelast (l ++ [x]) = l.
Proof. apply removelast_last. Qed.

Lemma last_snoc {A} (l : list A) x d : List.last (l ++ [x]) d = x.
Proof. apply last_last. Qed.

Lemma Split_snoc s sep :
  strings.Split s sep =
  removelast (strings.Split s sep) ++ [List.last (strings.Split s sep) []].
Proof. apply app_removelast_last, Split_not_nil. Qed.

(** [Set] on a description of decimal tokens: the shards are read in order
    and only the scan for duplicates remains. *)
Lemma Set_description l hist act :
  Forall decimalPair hist → isDecimalUint64 act = true →
  LogRangesFlag_Set l (description hist act) =
  match findDuplicate (shardsOf hist act) ∅ with
  | Some e => (emptyFlag, Some e)
  | None => ({| Ranges := {| api.Ranges := shardsOf hist act |} |}, None)
  end.
Proof.
  intros Hh Ha. unfold LogRangesFlag_Set.
  rewrite description_Split; [|done|].
  2:{ apply digits_no_char; [done|by apply isDecimalUint64_digits]. }
  rewrite removelast_snoc, last_snoc, parseRanges_ok by done.
  by rewrite (ParseUint_ok _ Ha).
Qed.

(** Every input either fails with a format error or is a description of
    decimal tokens. *)
Lemma Set_cases l s :
  (∃ e, LogRangesFlag_Set l s = (emptyFlag, Some e) ∧ isFormatError e = true)
  ∨ (∃ hist act, s = description hist act ∧ Forall decimalPair hist
                 ∧ isDecimalUint64 act = true).
Proof.
  unfold LogRangesFlag_Set.
  destruct (parseRanges _ []) as [e|rs] eqn:Ep.
  { left. exists e. split; [done|]. by eapply parseRanges_inl. }
  destruct (strconv.ParseUint _) as [n [e|]] eqn:El.
  { left. by exists (ErrNumError e). }
  right. apply parseRanges_inr in Ep as (hist & Eh & Hh & _).
  apply ParseUint_inv in El as (Ha & _).
  exists hist, (List.last (strings.Split s ",") []). split; [|done].
  unfold description. by rewrite <- Eh, <- Split_snoc, Join_Split.
Qed.

(** A successful [Set] read a description of decimal tokens with pairwise
    distinct tree ids, and stored its shards. *)
Lemma Set_success l s l' :
  LogRangesFlag_Set l s = (l', None) →
  ∃ hist act, s = description hist act ∧ Forall decimalPair hist
    ∧ isDecimalUint64 act = true
    ∧ NoDup (api.TreeID <$> shardsOf hist act)
    ∧ l' = {| Ranges := {| api.Ranges := shardsOf hist act |} |}.
Proof.
  intros H. destruct (Set_cases l s) as [(e & He & _)|(hist & act & -> & Hh & Ha)].
  { congruence. }
  exists hist, act. rewrite Set_description in H by done.
  destruct (findDuplicate _ ∅) eqn:Ed; [done|].
  apply findDuplicate_None_inv in Ed as [Hnd _]. by injection H as <-.
Qed.

(** A sequence with a repetition has a first collision. *)
Lemma first_collision (ids : list Z) :
  ¬ NoDup ids → ∃ l1 d l2, ids = l1 ++ d :: l2 ∧ NoDup l1 ∧ d ∈ l1.
Proof.
  induction ids as [|x ids IH] using rev_ind; intros Hnd.
  { destruct Hnd. constructor. }
  destruct (decide (NoDup ids)) as [Hok|Hbad].
  - exists ids, x, []. split; [done|]. split; [done|].
    destruct (decide (x ∈ ids)) as [|Hx]; [done|].
    destruct Hnd. apply NoDup_app. split; [done|]. split; [|apply NoDup_singleton].
    intros y Hy ->%list_elem_of_singleton. done.
  - destruct (IH Hbad) as (l1 & d & l2 & -> & H1 & Hd).
    exists l1, d, (l2 ++ [x]). by rewrite <- app_assoc.
Qed.

(** ** Rendering *)

Lemma digitChar_byteval c :
  isDigit c = true → fmt.digitChar (strconv.byteval c - 48) = c.
Proof.
  intros Hc. apply byteval_inj.
  destruct (isDigit_digitOf c Hc) as [_ Hd]. rewrite byteval_digitChar; lia.
Qed.

Lemma digitsValue_head h t :
  forallb isDigit (h :: t) = true → h ≠ "0"%char → 1 ≤ digitsValue (h :: t).
Proof.
  intros [Hh Ht]%andb_true_iff Hnz.
  destruct (isDigit_digitOf h Hh) as [_ Hd].
  assert (strconv.byteval h ≠ 48) by (intros E; by apply Hnz, byteval_inj).
  unfold digitsValue. simpl. etrans; [|apply digitsValueFrom_ge]; [lia|lia|done].
Qed.

(** [%d] gives back a digit sequence that does not start with a zero. *)
Lemma fmtInteger_digitsValue h t w :
  forallb isDigit (h :: t) = true → h ≠ "0"%char →
  digitsValue (h :: t) < 10 ^ Z.of_nat w →
  fmt.fmtInteger w (digitsValue (h :: t)) [] = h :: t.
Proof.
  revert w. induction t as [|c t IH] using rev_ind; intros w Hs Hnz Hw.
  - pose proof (digitsValue_head h [] Hs Hnz) as H1.
    apply andb_true_iff in Hs as [Hh _].
    destruct (isDigit_digitOf h Hh) as [_ Hd].
    unfold digitsValue in *. simpl in *.
    replace (0 * 10 + (strconv.byteval h - 48)) with (strconv.byteval h - 48) in * by lia.
    destruct w as [|w]; [simpl in Hw; lia|]. simpl.
    destruct (Z.leb_spec 10 (strconv.byteval h - 48)); [lia|].
    by rewrite digitChar_byteval.
  - rewrite app_comm_cons in *. rewrite forallb_app in Hs.
    apply andb_true_iff in Hs as [Hs [Hc _]%andb_true_iff].
    pose proof (digitsValue_head h t Hs Hnz) as H1.
    destruct (isDigit_digitOf c Hc) as [_ Hd].
    unfold digitsValue in *. rewrite digitsValueFrom_app in *.
    set (v := digitsValueFrom (h :: t) 0) in *. simpl in Hw |- *.
    destruct w as [|w]; [simpl in Hw; lia|].
    rewrite Nat2Z.inj_succ, Z.pow_succ_r in Hw by lia. simpl.
    destruct (Z.leb_spec 10 (v * 10 + (strconv.byteval c - 48))); [|lia].
    assert ((v * 10 + (strconv.byteval c - 48)) / 10 = v) as ->.
    { symmetry. apply Z.div_unique with (r := strconv.byteval c - 48); lia. }
    rewrite fmtInteger_app, IH by (done || lia).
    replace (v * 10 + (strconv.byteval c - 48) - v * 10)
      with (strconv.byteval c - 48) by lia.
    by rewrite digitChar_byteval.
Qed.

Lemma Sprintf_d_digitsValue s :
  isDecimalUint64 s = true → noLeadingZero s = true →
  fmt.Sprintf_d (digitsValue s) = s.
Proof.
  intros Hs Hz. pose proof (isDecimalUint64_range s Hs) as Hr.
  pose proof (isDecimalUint64_digits s Hs) as Hd.
  destruct s as [|h t]; [done|].
  destruct (Ascii.eqb_spec h "0") as [->|Hne].
  - destruct t; [done|]. done.
  - apply fmtInteger_digitsValue; [done|done|].
    rewrite maxUint64_eq in Hr.
    change (10 ^ Z.of_nat 20) with 100000000000000000000. lia.
Qed.

Lemma renderShard_no_comma r :
  0 ≤ api.TreeID r → 0 ≤ api.TreeLength r → ","%char ∉ renderShard r.
Proof.
  intros H1 H2. unfold renderShard, fmt.Sprintf_d_eq_d.
  intros [Hin|[Hin|Hin]%elem_of_cons]%elem_of_app; [|done|].
  - revert Hin. apply digits_no_char; [done|]. by apply Sprintf_d_digits.
  - revert Hin. apply digits_no_char; [done|]. by apply Sprintf_d_digits.
Qed.

Lemma shardsOf_nonneg hist act :
  Forall decimalPair hist → isDecimalUint64 act = true →
  Forall (fun r => 0 ≤ api.TreeID r ∧ 0 ≤ api.TreeLength r) (shardsOf hist act).
Proof.
  intros Hh Ha. apply Forall_app. split.
  - apply Forall_fmap. eapply Forall_impl; [done|]. intros p [H1 H2]. simpl.
    apply isDecimalUint64_range in H1, H2. lia.
  - apply Forall_singleton. simpl. apply isDecimalUint64_range in Ha. lia.
Qed.

(** The tokens of the text [String] writes are the rendered shards. *)
Lemma String_Split rs :
  rs ≠ [] → Forall (fun r => 0 ≤ api.TreeID r ∧ 0 ≤ api.TreeLength r) rs →
  strings.Split (LogRangesFlag_String {| Ranges := {| api.Ranges := rs |} |}) ","
  = renderShard <$> rs.
Proof.
  intros Hne Hrs. unfold LogRangesFlag_String. simpl.
  apply (Split_Join ","%char (renderShard <$> rs)).
  - by destruct rs.
  - apply Forall_fmap. eapply Forall_impl; [done|].
    intros r [H1 H2]. by apply renderShard_no_comma.
Qed.

Lemma renderShard_historical p :
  decimalPair p → noLeadingZero p.1 = true → noLeadingZero p.2 = true →
  renderShard (historicalShard p) = historicalToken p.
Proof.
  intros [H1 H2] Z1 Z2. unfold renderShard, fmt.Sprintf_d_eq_d, historicalToken. simpl.
  by rewrite !Sprintf_d_digitsValue.
Qed.

Lemma renderShard_active act :
  renderShard (activeShard act) = fmt.Sprintf_d (digitsValue act) ++ str "=0".
Proof. done. Qed.

Lemma not_decimal_with_eq a b : isDecimalUint64 (a ++ "="%char :: b) = false.
Proof.
  destruct (isDecimalUint64 _) eqn:E; [|done].
  apply isDecimalUint64_digits in E. exfalso.
  apply (digits_no_char "="%char (a ++ "="%char :: b)); [done|done|].
  apply elem_of_app. right. left.
Qed.

(** [Set] fails with a format error when the last token is not a decimal
    unsigned 64-bit integer. *)
Lemma Set_last_not_decimal l s :
  isDecimalUint64 (List.last (strings.Split s ",") []) = false →
  ∃ e, LogRangesFlag_Set l s = (emptyFlag, Some e) ∧ isFormatError e = true.
Proof.
  intros Hlast. unfold LogRangesFlag_Set.
  destruct (parseRanges _ []) as [e|rs] eqn:Ep.
  { exists e. split; [done|]. by eapply parseRanges_inl. }
  destruct (ParseUint_fails _ Hlast) as (n & e & ->).
  by exists (ErrNumError e).
Qed.

(** ** Properties of [Set] and [String] *)

(** C1. A description of n >= 1 comma-separated tokens, the first n-1 of the
    form a=b and the last bare, all numbers decimal unsigned 64-bit integers
    and all tree ids pairwise distinct, is accepted by [Set], which stores
    exactly n shards in input order: the n-1 historical ones with their tree
    id and length, then the active one with its tree id and no length (the
    zero value). *)
Theorem Set_accepts_description l hist act :
  Forall decimalPair hist → isDecimalUint64 act = true →
  NoDup (api.TreeID <$> shardsOf hist act) →
  LogRangesFlag_Set l (description hist act)
  = ({| Ranges := {| api.Ranges := shardsOf hist act |} |}, None)
  ∧ length (shardsOf hist act) = S (length hist).
Proof.
  intros Hh Ha Hnd. split.
  - rewrite Set_description by done.
    rewrite findDuplicate_None; [done|done|]. intros x _. apply not_elem_of_empty.
  - unfold shardsOf. rewrite length_app, length_fmap. simpl. lia.
Qed.

Lemma Set_accepts_description_witness :
  LogRangesFlag_Set emptyFlag (str "1=100,2=50,3")
  = ({| Ranges := {| api.Ranges :=
         [ {| api.TreeID := 1; api.TreeLength := 100 |};
           {| api.TreeID := 2; api.TreeLength := 50 |};
           {| api.TreeID := 3; api.TreeLength := 0 |} ] |} |}, None).
Proof.
  refine (proj1 (Set_accepts_description emptyFlag
            [(str "1", str "100"); (str "2", str "50")] (str "3") _ _ _)).
  - repeat constructor.
  - reflexivity.
  - apply (bool_decide_unpack _). vm_compute. exact I.
Defined.

(** C5. When the shard sequence read from a description holds two shards
    with the same tree id, the sequence has a first collision in its order
    (a first id that repeats an earlier one), and [Set] fails with the
    duplicate-tree-id error that names it, and stores no config. *)
Theorem Set_duplicate_tree_id l hist act :
  Forall decimalPair hist → isDecimalUint64 act = true →
  (¬ NoDup (api.TreeID <$> shardsOf hist act) →
   ∃ l1 d l2, api.TreeID <$> shardsOf hist act = l1 ++ d :: l2 ∧ NoDup l1 ∧ d ∈ l1)
  ∧ (∀ l1 d l2,
       api.TreeID <$> shardsOf hist act = l1 ++ d :: l2 → NoDup l1 → d ∈ l1 →
       LogRangesFlag_Set l (description hist act)
       = (emptyFlag, Some (ErrDuplicateTreeID d))).
Proof.
  intros Hh Ha. split; [apply first_collision|].
  intros l1 d l2 Heq H1 Hd. rewrite Set_description by done.
  rewrite (findDuplicate_first _ _ l1 d l2); [done|done|done| |by left].
  intros x _. apply not_elem_of_empty.
Qed.

Lemma Set_duplicate_tree_id_witness :
  LogRangesFlag_Set emptyFlag (str "1=100,1=50,2")
  = (emptyFlag, Some (ErrDuplicateTreeID 1)).
Proof.
  refine (proj2 (Set_duplicate_tree_id emptyFlag
                   [(str "1", str "100"); (str "1", str "50")] (str "2") _ _)
            [1] 1 [2] _ _ _).
  - repeat constructor.
  - reflexivity.
  - reflexivity.
  - apply (bool_decide_unpack _). vm_compute. exact I.
  - apply (bool_decide_unpack _). vm_compute. exact I.
Defined.

(** C8. [Set] fails with a format error whenever a token other than the last
    lacks the separator [=], or a numeric field (either half of such a token,
    cut at its first [=], or the bare last token) is not a decimal unsigned
    64-bit integer. *)
Theorem Set_format_error l s :
  (∃ t, t ∈ removelast (strings.Split s ",") ∧ "="%char ∉ t)
  ∨ (∃ a b, (a ++ "="%char :: b) ∈ removelast (strings.Split s ",")
            ∧ ("="%char ∉ a)
            ∧ (isDecimalUint64 a = false ∨ isDecimalUint64 b = false))
  ∨ isDecimalUint64 (List.last (strings.Split s ",") []) = false →
  ∃ e, LogRangesFlag_Set l s = (emptyFlag, Some e) ∧ isFormatError e = true.
Proof.
  intros [Hbad|[Hbad|Hlast]]; [| |by apply Set_last_not_decimal]; unfold LogRangesFlag_Set.
  all: destruct (parseRanges _ []) as [e|rs] eqn:Ep;
    [exists e; split; [done|]; by eapply parseRanges_inl|];
    apply parseRanges_inr in Ep as (hist & Eh & Hh & _).
  all: destruct Hbad as (a & Hbad).
  - exfalso. destruct Hbad as [Ht Hne].
    rewrite Eh in Ht. apply list_elem_of_fmap in Ht as (p & -> & _).
    apply Hne. unfold historicalToken. apply elem_of_app. right. left.
  - exfalso. destruct Hbad as (b & Ht & Ha & Hab).
    rewrite Eh in Ht. apply list_elem_of_fmap in Ht as (p & Hp & Hin).
    rewrite Forall_forall in Hh. destruct (Hh p Hin) as [H1 H2].
    pose proof (SplitN2_app_sep "="%char a b Ha) as E1.
    rewrite Hp, historicalToken_SplitN2 in E1 by by apply isDecimalUint64_digits.
    injection E1 as E1 E2. destruct Hab; congruence.
Qed.

Lemma Set_format_error_witness :
  ∃ e, LogRangesFlag_Set emptyFlag (str "1,2=50") = (emptyFlag, Some e)
       ∧ isFormatError e = true.
Proof.
  apply (Set_format_error emptyFlag (str "1,2=50")).
  left. exists (str "1"). split.
  - vm_compute. left.
  - apply (bool_decide_unpack _). vm_compute. exact I.
Defined.

Example Set_format_error_missing_separator :
  LogRangesFlag_Set emptyFlag (str "1,2=50")
  = (emptyFlag, Some (ErrInvalidRangeFlag (str "1"))).
Proof. vm_compute. reflexivity. Qed.

Example Set_format_error_not_numeric :
  LogRangesFlag_Set emptyFlag (str "abc=100,2")
  = (emptyFlag,
     Some (ErrNumError {| strconv.Num := str "abc"; strconv.Err := strconv.ErrSyntax |})).
Proof. vm_compute. reflexivity. Qed.

(** C9. [Set] resets the receiver before it parses: whenever it returns an
    error the receiver holds the empty config, whatever it held before. *)
Theorem Set_error_resets_receiver l s l' e :
  LogRangesFlag_Set l s = (l', Some e) →
  Ranges l' = {| api.Ranges := [] |}.
Proof.
  unfold LogRangesFlag_Set.
  destruct (parseRanges _ []) as [?|rs]; [by intros [= <- _]|].
  destruct (strconv.ParseUint _) as [n [?|]]; [by intros [= <- _]|].
  destruct (findDuplicate _ ∅); [by intros [= <- _]|done].
Qed.

Lemma Set_error_resets_receiver_witness :
  let before := {| Ranges := {| api.Ranges :=
                    [ {| api.TreeID := 1; api.TreeLength := 100 |};
                      {| api.TreeID := 2; api.TreeLength := 0 |} ] |} |} in
  Ranges (LogRangesFlag_Set before (str "1=100,x")).1 = {| api.Ranges := [] |}
  ∧ Ranges before ≠ {| api.Ranges := [] |}.
Proof.
  intros before. split; [|done].
  apply (Set_error_resets_receiver before (str "1=100,x") _
           (ErrNumError {| strconv.Num := str "x"; strconv.Err := strconv.ErrSyntax |})).
  vm_compute. reflexivity.
Defined.

(** The text [String] writes after a successful [Set], token by token. *)
Lemma String_after_Set hist act :
  Forall decimalPair hist → isDecimalUint64 act = true →
  strings.Split
    (LogRangesFlag_String {| Ranges := {| api.Ranges := shardsOf hist act |} |}) ","
  = (renderShard <$> (historicalShard <$> hist))
      ++ [fmt.Sprintf_d (digitsValue act) ++ str "=0"].
Proof.
  intros Hh Ha. rewrite String_Split.
  - unfold shardsOf. by rewrite fmap_app.
  - unfold shardsOf. by destruct (historicalShard <$> hist).
  - by apply shardsOf_nonneg.
Qed.

(** C6, as stated, fails: a historical token written with a leading zero is
    accepted by [Set] and is not reproduced by [String]. *)
Lemma String_reproduces_tokens_counterexample :
  ¬ (∀ l s l', LogRangesFlag_Set l s = (l', None) →
       removelast (strings.Split (LogRangesFlag_String l') ",")
       = removelast (strings.Split s ",")).
Proof.
  intros H.
  specialize (H emptyFlag (str "01=100,2") _ eq_refl).
  vm_compute in H. discriminate H.
Qed.

(** C6, amended. After a successful [Set], [String] renders each shard as
    treeID=length, in decimal without leading zeros, joined with commas in
    the original order: there are as many tokens as in the input, every
    historical token of the input whose two numbers are written without
    leading zeros is reproduced exactly at its position, and the token of
    the active shard is its tree id followed by [=0]. *)
Theorem String_renders_shards l s l' :
  LogRangesFlag_Set l s = (l', None) →
  ∃ hist act,
    strings.Split s "," = (historicalToken <$> hist) ++ [act]
    ∧ LogRangesFlag_String l'
      = strings.Join ((renderShard <$> (historicalShard <$> hist))
                        ++ [fmt.Sprintf_d (digitsValue act) ++ str "=0"]) ","
    ∧ length (strings.Split (LogRangesFlag_String l') ",")
      = length (strings.Split s ",")
    ∧ (∀ (k : nat) p, hist !! k = Some p →
         noLeadingZero p.1 = true → noLeadingZero p.2 = true →
         strings.Split (LogRangesFlag_String l') "," !! k = Some (historicalToken p))
    ∧ List.last (strings.Split (LogRangesFlag_String l') ",") []
      = fmt.Sprintf_d (digitsValue act) ++ str "=0".
Proof.
  intros H. apply Set_success in H as (hist & act & -> & Hh & Ha & Hnd & ->).
  exists hist, act.
  assert (","%char ∉ act) as Hc.
  { apply digits_no_char; [done|by apply isDecimalUint64_digits]. }
  rewrite String_after_Set, description_Split by done.
  split; [done|]. split; [|split; [|split]].
  - unfold LogRangesFlag_String, shardsOf. simpl. by rewrite fmap_app.
  - by rewrite !length_app, !length_fmap.
  - intros k p Hk Z1 Z2.
    rewrite lookup_app_l by (rewrite !length_fmap; by eapply lookup_lt_Some).
    rewrite !list_lookup_fmap, Hk. simpl. f_equal.
    apply renderShard_historical; [|done|done].
    rewrite Forall_forall in Hh. apply Hh. by eapply list_elem_of_lookup_2.
  - apply last_snoc.
Qed.

Lemma String_renders_shards_witness :
  let l' := {| Ranges := {| api.Ranges :=
                [ {| api.TreeID := 1; api.TreeLength := 100 |};
                  {| api.TreeID := 2; api.TreeLength := 0 |} ] |} |} in
  ∃ hist act,
    strings.Split (str "1=100,2") "," = (historicalToken <$> hist) ++ [act]
    ∧ LogRangesFlag_String l'
      = strings.Join ((renderShard <$> (historicalShard <$> hist))
                        ++ [fmt.Sprintf_d (digitsValue act) ++ str "=0"]) ","
    ∧ length (strings.Split (LogRangesFlag_String l') ",")
      = length (strings.Split (str "1=100,2") ",")
    ∧ (∀ (k : nat) p, hist !! k = Some p →
         noLeadingZero p.1 = true → noLeadingZero p.2 = true →
         strings.Split (LogRangesFlag_String l') "," !! k = Some (historicalToken p))
    ∧ List.last (strings.Split (LogRangesFlag_String l') ",") []
      = fmt.Sprintf_d (digitsValue act) ++ str "=0".
Proof.
  exact (String_renders_shards emptyFlag (str "1=100,2") _ eq_refl).
Defined.

Example String_of_Set_1_100_2 :
  LogRangesFlag_String (LogRangesFlag_Set emptyFlag (str "1=100,2")).1 = str "1=100,2=0".
Proof. vm_compute. reflexivity. Qed.

(** C10. The text [String] writes is never accepted by [Set]: a config
    stored by a successful [Set] has one range at least, the last token
    [String] writes for it has the form treeID=0, where [Set] wants a bare
    integer, and [Set] fails on that text with a format error. *)
Theorem Set_String_fails l s l' :
  LogRangesFlag_Set l s = (l', None) →
  api.Ranges (Ranges l') ≠ []
  ∧ (∃ tid, List.last (strings.Split (LogRangesFlag_String l') ",") []
            = fmt.Sprintf_d tid ++ str "=0")
  ∧ ∀ l0, ∃ e, LogRangesFlag_Set l0 (LogRangesFlag_String l') = (emptyFlag, Some e)
               ∧ isFormatError e = true.
Proof.
  intros H. apply Set_success in H as (hist & act & -> & Hh & Ha & Hnd & ->).
  pose proof (String_after_Set hist act Hh Ha) as Hs.
  split; [|split].
  - simpl. unfold shardsOf. by destruct (historicalShard <$> hist).
  - exists (digitsValue act). rewrite Hs. apply last_snoc.
  - intros l0. apply Set_last_not_decimal.
    rewrite Hs, last_snoc. apply not_decimal_with_eq.
Qed.

Lemma Set_String_fails_witness :
  let l' := {| Ranges := {| api.Ranges :=
                [ {| api.TreeID := 1; api.TreeLength := 100 |};
                  {| api.TreeID := 2; api.TreeLength := 0 |} ] |} |} in
  api.Ranges (Ranges l') ≠ []
  ∧ (∃ tid, List.last (strings.Split (LogRangesFlag_String l') ",") []
            = fmt.Sprintf_d tid ++ str "=0")
  ∧ ∀ l0, ∃ e, LogRangesFlag_Set l0 (LogRangesFlag_String l') = (emptyFlag, Some e)
               ∧ isFormatError e = true.
Proof.
  exact (Set_String_fails emptyFlag (str "1=100,2") _ eq_refl).
Defined.

(** ** The loops of the backfill *)

Section BackfillProperties.
Context `{Collaborators}.


Lemma bind_assoc {A B C} (m : M A) (f : A → M B) (g : B → M C) w :
  bind (bind m f) g w = bind m (fun a => bind (f a) g) w.
Proof.
  unfold bind. destruct (m w) as [[a w1] t1].
  destruct (f a w1) as [[b w2] t2]. destruct (g b w2) as [[c w3] t3].
  by rewrite app_assoc.
Qed.


Lemma bind_Printf {B} e (f : unit → M B) w :
  bind (Printf e) f w = let '(b, w2, t2) := f tt w in (b, w2, e :: t2).
Proof. unfold bind, Printf. by destruct (f tt w) as [[b w2] t2]. Qed.

Lemma bind_ret {A B} (a : A) (f : A → M B) w : bind (ret a) f w = f a w.
Proof. unfold bind, ret. by destruct (f a w) as [[b w2] t2]. Qed.

(** One turn of the loop over the keys. *)
Lemma keysLoop_cons i uuid key keys success w :
  keysLoop i uuid (key :: keys) success w =
  let '(err, w1) := LPUSH key uuid w in
  let '(s, w2, t) :=
    keysLoop i uuid keys (match err with Some _ => false | None => success end) w1 in
  (s, w2,
   CallLPUSH key uuid
     :: match err with Some e => [PrintErrorInserting uuid key e] | None => [] end
     ++ PrintUploaded uuid i key :: t).
Proof.
  simpl. unfold bind at 1. unfold addToIndex, call.
  destruct (LPUSH key uuid w) as [[e|] w1].
  - rewrite bind_assoc, bind_Printf, bind_ret, bind_Printf.
    by destruct (keysLoop i uuid keys false w1) as [[s w2] t].
  - rewrite bind_ret, bind_Printf.
    by destruct (keysLoop i uuid keys success w1) as [[s w2] t].
Qed.

(** The turns of the loop over the pairs. *)
Lemma payloadLoop_decode_error i uuid body payload success w err :
  unmarshalEntryImpl body = inl err →
  payloadLoop i ((uuid, body) :: payload) success w =
  let '(s, w1, t) := payloadLoop i payload false w in
  (s, w1, PrintErrorUnmarshalling uuid err :: t).
Proof. intros Hd. simpl. rewrite Hd. apply bind_Printf. Qed.

Lemma payloadLoop_keys_error i uuid body payload success w e k v err w1 :
  unmarshalEntryImpl body = inr (e, k, v) → IndexKeys e w = (inl err, w1) →
  payloadLoop i ((uuid, body) :: payload) success w =
  let '(s, w2, t) := payloadLoop i payload false w1 in
  (s, w2, PrintErrorBuildingIndexKeys uuid err :: t).
Proof.
  intros Hd Hk. simpl. rewrite Hd. unfold bind at 1, method. rewrite Hk.
  rewrite bind_Printf. by destruct (payloadLoop i payload false w1) as [[s w2] t].
Qed.

Lemma payloadLoop_keys i uuid body payload success w e k v keys w1 :
  unmarshalEntryImpl body = inr (e, k, v) → IndexKeys e w = (inr keys, w1) →
  payloadLoop i ((uuid, body) :: payload) success w =
  let '(s1, w2, t1) := keysLoop i uuid keys success w1 in
  let '(s2, w3, t2) := payloadLoop i payload s1 w2 in
  (s2, w3, t1 ++ t2).
Proof.
  intros Hd Hk. simpl. rewrite Hd. unfold bind at 1, method. rewrite Hk.
  unfold bind. destruct (keysLoop i uuid keys success w1) as [[s1 w2] t1].
  by destruct (payloadLoop i payload s1 w2) as [[s2 w3] t2].
Qed.


Lemma keysLoop_trace i uuid keys success w s w' t :
  keysLoop i uuid keys success w = (s, w', t) →
  s = success && noFailure t ∧ forallb perEntry t = true.
Proof.
  revert success w s w' t. induction keys as [|key keys IH]; intros success w s w' t.
  { intros [= <- <- <-]. by rewrite andb_true_r. }
  rewrite keysLoop_cons. destruct (LPUSH key uuid w) as [[e|] w1].
  - destruct (keysLoop i uuid keys false w1) as [[s1 w2] t1] eqn:E.
    intros [= <- <- <-]. apply IH in E as [-> Hp]. simpl. by rewrite andb_false_r.
  - destruct (keysLoop i uuid keys success w1) as [[s1 w2] t1] eqn:E.
    intros [= <- <- <-]. by apply IH in E as [-> Hp].
Qed.

Lemma payloadLoop_trace i payload success w s w' t :
  payloadLoop i payload success w = (s, w', t) →
  s = success && noFailure t ∧ forallb perEntry t = true.
Proof.
  revert success w s w' t.
  induction payload as [|[uuid body] payload IH]; intros success w s w' t.
  { intros [= <- <- <-]. by rewrite andb_true_r. }
  destruct (unmarshalEntryImpl body) as [err|[[e k] v]] eqn:Hd.
  - rewrite (payloadLoop_decode_error _ _ _ _ _ _ _ Hd).
    destruct (payloadLoop i payload false w) as [[s1 w1] t1] eqn:E.
    intros [= <- <- <-]. apply IH in E as [-> Hp]. simpl. by rewrite andb_false_r.
  - destruct (IndexKeys e w) as [[err|keys] w1] eqn:Hk.
    + rewrite (payloadLoop_keys_error _ _ _ _ _ _ _ _ _ _ _ Hd Hk).
      destruct (payloadLoop i payload false w1) as [[s1 w2] t1] eqn:E.
      intros [= <- <- <-]. apply IH in E as [-> Hp]. simpl. by rewrite andb_false_r.
    + rewrite (payloadLoop_keys _ _ _ _ _ _ _ _ _ _ _ Hd Hk).
      destruct (keysLoop i uuid keys success w1) as [[s1 w2] t1] eqn:E1.
      destruct (payloadLoop i payload s1 w2) as [[s2 w3] t2] eqn:E2.
      intros [= <- <- <-].
      apply keysLoop_trace in E1 as [-> Hp1]. apply IH in E2 as [-> Hp2].
      unfold noFailure. rewrite !forallb_app, Hp1, Hp2. split; [|done].
      by rewrite andb_assoc.
Qed.



(** The two ends of one index. *)
Lemma iteration_fatal i w err w1 :
  GetLogEntryByIndex i w = (inl err, w1) →
  iteration i w = (Exited, w1, [CallGetLogEntryByIndex i; LogFatalf err]).
Proof.
  intros Hg. unfold iteration, bind at 1, call. rewrite Hg.
  by rewrite bind_Printf.
Qed.

Lemma iteration_alive i w payload w1 success w2 t :
  GetLogEntryByIndex i w = (inr payload, w1) →
  payloadLoop i payload true w1 = (success, w2, t) →
  iteration i w =
  (Alive, w2,
   CallGetLogEntryByIndex i
     :: t ++ [if success then PrintCompleted i else PrintErrors i]).
Proof.
  intros Hg Hp. unfold iteration, bind at 1, call. rewrite Hg.
  unfold bind at 1. rewrite Hp. by rewrite bind_Printf.
Qed.

Lemma indexLoop_fuel fuel k i endIndex w r :
  indexLoop fuel i endIndex w = Some r → indexLoop (fuel + k) i endIndex w = Some r.
Proof.
  revert i w r. induction fuel as [|fuel IH]; intros i w r; [done|].
  simpl. destruct (i <=? endIndex); [|done].
  destruct (iteration i w) as [[[|] w1] t1]; [|done].
  destruct (indexLoop fuel _ endIndex w1) as [[[s w2] t2]|] eqn:E; [|done].
  by rewrite (IH _ _ _ E).
Qed.

Lemma wrapInt_succ i : - 2 ^ 63 ≤ i < 2 ^ 63 - 1 → wrapInt (i + 1) = i + 1.
Proof. intros Hi. unfold wrapInt. rewrite Z.mod_small; lia. Qed.

(** X13. A run over a range that stops below the largest [int] ends: one
    turn for each index of the range and one more are enough. *)
Lemma indexLoop_terminates a b w :
  - 2 ^ 63 ≤ a → b < 2 ^ 63 - 1 →
  ∃ r, indexLoop (S (Z.to_nat (b + 1 - a))) a b w = Some r.
Proof.
  remember (Z.to_nat (b + 1 - a)) as n eqn:En.
  revert a w En. induction n as [|n IH]; intros a w En Ha Hb.
  - simpl. destruct (Z.leb_spec a b); [lia|]. by eexists.
  - change (indexLoop (S (S n)) a b w)
      with (if a <=? b then
              match iteration a w with
              | (Exited, w1, t1) => Some (Exited, w1, t1)
              | (Alive, w1, t1) =>
                  match indexLoop (S n) (wrapInt (a + 1)) b w1 with
                  | Some (s, w2, t2) => Some (s, w2, t1 ++ t2)
                  | None => None
                  end
              end
            else Some (Alive, w, [])).
    destruct (Z.leb_spec a b); [|lia].
    destruct (iteration a w) as [[[|] w1] t1]; [|by eexists].
    rewrite wrapInt_succ by lia.
    destruct (IH (a + 1) w1) as [[[s w2] t2] ->]; [lia..|]. by eexists.
Qed.

(** A run over [startIndex .. i - 1] that returns, followed by a run over
    [i .. endIndex], is the run over [startIndex .. endIndex]. *)
Lemma indexLoop_split fuel1 fuel2 startIndex i endIndex w w1 t1 s w2 t2 :
  - 2 ^ 63 ≤ startIndex → startIndex ≤ i → i ≤ endIndex → i < 2 ^ 63 →
  indexLoop fuel1 startIndex (i - 1) w = Some (Alive, w1, t1) →
  indexLoop fuel2 i endIndex w1 = Some (s, w2, t2) →
  indexLoop (fuel1 + fuel2) startIndex endIndex w = Some (s, w2, t1 ++ t2).
Proof.
  revert startIndex w t1.
  induction fuel1 as [|fuel1 IH]; intros startIndex w t1 Hmin Hsi Hie Hmax; [done|].
  destruct (Z.leb_spec startIndex (i - 1)) as [Hlt|Hge].
  - simpl. destruct (Z.leb_spec startIndex (i - 1)); [|lia].
    destruct (Z.leb_spec startIndex endIndex); [|lia].
    destruct (iteration startIndex w) as [[[|] w'] t'] eqn:Ei; [|done].
    rewrite wrapInt_succ by lia.
    destruct (indexLoop fuel1 _ (i - 1) w') as [[[s' w''] t'']|] eqn:E1; [|done].
    intros [= -> -> <-] E2.
    rewrite (IH (startIndex + 1) w' t''); [|lia|lia|done..].
    by rewrite app_assoc.
  - intros E1 E2. simpl in E1. destruct (Z.leb_spec startIndex (i - 1)); [lia|].
    injection E1 as <- <-. assert (startIndex = i) as -> by lia.
    rewrite Nat.add_comm. by apply indexLoop_fuel.
Qed.
End BackfillProperties.

Section BackfillTraces.
Context `{Collaborators}.



(** The body of the loop ends in one of two ways, and retrieval alone
    decides which. *)
Lemma iteration_cases i w :
  (∃ err w1, GetLogEntryByIndex i w = (inl err, w1)
     ∧ iteration i w = (Exited, w1, [CallGetLogEntryByIndex i; LogFatalf err]))
  ∨ (∃ payload w1 success w2 t,
       GetLogEntryByIndex i w = (inr payload, w1)
       ∧ payloadLoop i payload true w1 = (success, w2, t)
       ∧ iteration i w =
         (Alive, w2,
          CallGetLogEntryByIndex i
            :: t ++ [if success then PrintCompleted i else PrintErrors i])).
Proof.
  destruct (GetLogEntryByIndex i w) as [[err|payload] w1] eqn:Hg.
  - left. exists err, w1. split; [done|]. by apply iteration_fatal.
  - right. destruct (payloadLoop i payload true w1) as [[success w2] t] eqn:Hp.
    exists payload, w1, success, w2, t. split; [done|]. split; [done|].
    by eapply iteration_alive.
Qed.



End BackfillTraces.

(** ** Properties of the backfill *)

Section BackfillClaims.
Context `{Collaborators}.

(** X7. The loop over the keys attempts one write for each key, in order,
    with the UUID of the entry as the value, and prints the line [Uploaded
    Redis entry] for each key as well. *)
Lemma keysLoop_reports i uuid keys success w :
  writesOf (keysLoop i uuid keys success w).2 = (fun k => (k, uuid)) <$> keys
  ∧ uploadedOf (keysLoop i uuid keys success w).2 = (fun k => (uuid, i, k)) <$> keys.
Proof.
  revert success w. induction keys as [|key keys IH]; intros success w; [done|].
  rewrite keysLoop_cons. destruct (LPUSH key uuid w) as [[e|] w1].
  - destruct (IH false w1) as [IH1 IH2].
    destruct (keysLoop i uuid keys false w1) as [[s w2] t]. simpl in *.
    unfold writesOf, uploadedOf in *. simpl. by rewrite IH1, IH2.
  - destruct (IH success w1) as [IH1 IH2].
    destruct (keysLoop i uuid keys success w1) as [[s w2] t]. simpl in *.
    unfold writesOf, uploadedOf in *. simpl. by rewrite IH1, IH2.
Qed.



End BackfillClaims.




(** C7. The Redis server of the testbed refuses the write of the key [full]:
    the failure is recorded, and the line [Uploaded Redis entry] for that
    very write is printed all the same. *)
Example failed_write_reported_as_uploaded :
  @iteration testbed 2 []
  = (Alive, [],
     [ @CallGetLogEntryByIndex testbed 2;
       @CallLPUSH testbed (str "full") (str "u3");
       @PrintErrorInserting testbed (str "u3") (str "full") (str "OOM");
       @PrintUploaded testbed (str "u3") 2 (str "full");
       @PrintErrors testbed 2 ]).
Proof. vm_compute. reflexivity. Qed.

(** ** More on [Set] and [String] *)

Lemma ParseUint_error_Num s n e :
  strconv.ParseUint s = (n, Some e) → strconv.Num e = s.
Proof.
  unfold strconv.ParseUint. destruct s as [|c s]; [by intros [= _ <-]|].
  destruct (strconv.ParseUint_loop (c :: s) 0) as [m [k|]]; [|done].
  by intros [= _ <-].
Qed.

Lemma ParseUint_error s n e :
  strconv.ParseUint s = (n, Some e) →
  e = {| strconv.Num := s; strconv.Err := strconv.Err e |}.
Proof. intros Hs. apply ParseUint_error_Num in Hs. destruct e. simpl in *. by subst. Qed.

(** A byte that is no digit ends the loop of [ParseUint] with the syntax
    error. *)
Lemma ParseUint_loop_not_digit c s n :
  isDigit c = false → strconv.ParseUint_loop (c :: s) n = (0, Some strconv.ErrSyntax).
Proof.
  intros Hc. simpl. destruct (strconv.digitOf c) as [d|] eqn:Ed; [|done].
  destruct (Z.leb_spec 10 d); [done|].
  destruct (digitOf_below_10 c d Ed); [done|congruence].
Qed.

(** Digits whose value does not fit 64 bits end it with the range error. *)
Lemma ParseUint_loop_overflow s n :
  0 ≤ n ≤ strconv.maxUint64 → forallb isDigit s = true →
  strconv.maxUint64 < digitsValueFrom s n →
  strconv.ParseUint_loop s n = (strconv.maxUint64, Some strconv.ErrRange).
Proof.
  revert n. induction s as [|c s IH]; simpl; intros n Hn Hs Hv; [lia|].
  apply andb_true_iff in Hs as [Hc Hs].
  destruct (isDigit_digitOf c Hc) as [-> Hd].
  set (d := strconv.byteval c - 48) in *.
  destruct (Z.leb_spec 10 d); [lia|].
  rewrite cutoff_eq. destruct (Z.leb_spec 1844674407370955162 n); [done|].
  rewrite maxUint64_eq in Hn. unfold strconv.wrap64.
  rewrite (Z.mod_small (n * 10)) by lia.
  destruct (Z.lt_ge_cases (n * 10 + d) (2 ^ 64)) as [Hlt|Hge].
  - rewrite (Z.mod_small (n * 10 + d)) by lia.
    destruct (Z.ltb_spec (n * 10 + d) (n * 10)); [lia|].
    rewrite maxUint64_eq.
    destruct (Z.ltb_spec 18446744073709551615 (n * 10 + d)); [lia|].
    simpl. rewrite <- maxUint64_eq. apply IH; [rewrite maxUint64_eq; lia|done|done].
  - assert ((n * 10 + d) mod 2 ^ 64 = n * 10 + d - 2 ^ 64) as ->.
    { symmetry. apply Z.mod_unique with (q := 1); lia. }
    destruct (Z.ltb_spec (n * 10 + d - 2 ^ 64) (n * 10)); [done|lia].
Qed.

Lemma parseRanges_app_ok good ts acc :
  Forall decimalPair good →
  parseRanges ((historicalToken <$> good) ++ ts) acc
  = parseRanges ts (acc ++ (historicalShard <$> good)).
Proof.
  revert acc. induction good as [|p good IH]; intros acc Hg.
  { simpl. by rewrite app_nil_r. }
  apply Forall_cons in Hg as [[H1 H2] Hg].
  rewrite fmap_cons. simpl.
  rewrite historicalToken_SplitN2 by by apply isDecimalUint64_digits.
  rewrite (ParseUint_ok _ H1), (ParseUint_ok _ H2), IH, <- app_assoc by done.
  done.
Qed.

Lemma removelast_app_cons {A} (l : list A) x rest :
  rest ≠ [] → removelast (l ++ x :: rest) = l ++ x :: removelast rest.
Proof.
  intros Hr. rewrite removelast_app by done. f_equal.
  simpl. by destruct rest.
Qed.

(** X1. [Set] succeeds on the descriptions of decimal tokens with pairwise
    distinct tree ids and on nothing else, and what it stores is the shard
    sequence of the description. *)
Theorem Set_succeeds_iff l s l' :
  LogRangesFlag_Set l s = (l', None)
  ↔ ∃ hist act,
      s = description hist act ∧ Forall decimalPair hist
      ∧ isDecimalUint64 act = true
      ∧ NoDup (api.TreeID <$> shardsOf hist act)
      ∧ l' = {| Ranges := {| api.Ranges := shardsOf hist act |} |}.
Proof.
  split; [apply Set_success|].
  intros (hist & act & -> & Hh & Ha & Hnd & ->).
  rewrite Set_description by done.
  rewrite findDuplicate_None; [done|done|]. intros x _. apply not_elem_of_empty.
Qed.

(** X2. The config a successful [Set] stores has as many shards as the input
    has tokens, so one at least; its tree ids are pairwise distinct; every
    tree id and length is an unsigned 64-bit value; and its last shard has
    the length zero. *)
Theorem Set_stores_valid_config l s l' :
  LogRangesFlag_Set l s = (l', None) →
  length (api.Ranges (Ranges l')) = length (strings.Split s ",")
  ∧ api.Ranges (Ranges l') ≠ []
  ∧ NoDup (api.TreeID <$> api.Ranges (Ranges l'))
  ∧ Forall (fun r => 0 ≤ api.TreeID r ≤ strconv.maxUint64
                     ∧ 0 ≤ api.TreeLength r ≤ strconv.maxUint64)
           (api.Ranges (Ranges l'))
  ∧ ∃ rs treeID,
      api.Ranges (Ranges l')
      = rs ++ [{| api.TreeID := treeID; api.TreeLength := 0 |}].
Proof.
  intros H. apply Set_success in H as (hist & act & -> & Hh & Ha & Hnd & ->). simpl.
  split; [|split; [|split; [done|split]]].
  - rewrite description_Split; [|done|].
    + unfold shardsOf. by rewrite !length_app, !length_fmap.
    + apply digits_no_char; [done|by apply isDecimalUint64_digits].
  - unfold shardsOf. by destruct (historicalShard <$> hist).
  - apply Forall_app. split.
    + apply Forall_fmap. eapply Forall_impl; [done|]. intros p [H1 H2]. simpl.
      by apply isDecimalUint64_range in H1, H2.
    + apply Forall_singleton. simpl. apply isDecimalUint64_range in Ha.
      rewrite maxUint64_eq in *. lia.
  - by exists (historicalShard <$> hist), (digitsValue act).
Qed.

Lemma Set_stores_valid_config_witness :
  let l' := (LogRangesFlag_Set emptyFlag (str "7=10,8")).1 in
  length (api.Ranges (Ranges l')) = 2%nat
  ∧ api.Ranges (Ranges l') ≠ []
  ∧ NoDup (api.TreeID <$> api.Ranges (Ranges l'))
  ∧ Forall (fun r => 0 ≤ api.TreeID r ≤ strconv.maxUint64
                     ∧ 0 ≤ api.TreeLength r ≤ strconv.maxUint64)
           (api.Ranges (Ranges l'))
  ∧ ∃ rs treeID,
      api.Ranges (Ranges l')
      = rs ++ [{| api.TreeID := treeID; api.TreeLength := 0 |}].
Proof.
  exact (Set_stores_valid_config emptyFlag (str "7=10,8") _ eq_refl).
Defined.

(** X3. [Set] reports the first malformed token: when the tokens before a
    token [t] other than the last are well formed, a [t] without [=] gives
    the invalid-range error that quotes [t], and a [t] with a half that is
    no decimal unsigned 64-bit integer gives the [NumError] that quotes the
    first such half, whatever the tokens after [t] are. *)
Theorem Set_reports_first_malformed l s good t rest :
  strings.Split s "," = (historicalToken <$> good) ++ t :: rest →
  rest ≠ [] → Forall decimalPair good →
  ("="%char ∉ t →
   LogRangesFlag_Set l s = (emptyFlag, Some (ErrInvalidRangeFlag t)))
  ∧ (∀ a b, t = a ++ "="%char :: b → "="%char ∉ a → isDecimalUint64 a = false →
       ∃ e, LogRangesFlag_Set l s
            = (emptyFlag, Some (ErrNumError {| strconv.Num := a; strconv.Err := e |})))
  ∧ (∀ a b, t = a ++ "="%char :: b → "="%char ∉ a → isDecimalUint64 a = true →
       isDecimalUint64 b = false →
       ∃ e, LogRangesFlag_Set l s
            = (emptyFlag, Some (ErrNumError {| strconv.Num := b; strconv.Err := e |}))).
Proof.
  intros Hs Hr Hg. unfold LogRangesFlag_Set.
  rewrite Hs, removelast_app_cons, parseRanges_app_ok by done. simpl app.
  split; [|split].
  - intros Ht. simpl. by rewrite SplitN2_no_sep.
  - intros a b -> Ha Hna. simpl. rewrite SplitN2_app_sep by done.
    destruct (ParseUint_fails a Hna) as (n & e & He).
    rewrite He. exists (strconv.Err e). by rewrite <- (ParseUint_error _ _ _ He).
  - intros a b -> Ha Hda Hnb. simpl. rewrite SplitN2_app_sep by done.
    rewrite (ParseUint_ok _ Hda).
    destruct (ParseUint_fails b Hnb) as (n & e & He).
    rewrite He. exists (strconv.Err e). by rewrite <- (ParseUint_error _ _ _ He).
Qed.

Lemma Set_reports_first_malformed_witness :
  LogRangesFlag_Set emptyFlag (str "1=2,x3,y=4,1")
  = (emptyFlag, Some (ErrInvalidRangeFlag (str "x3"))).
Proof.
  refine (proj1 (Set_reports_first_malformed emptyFlag (str "1=2,x3,y=4,1")
                   [(str "1", str "2")] (str "x3") [str "y=4"; str "1"] _ _ _) _).
  - reflexivity.
  - done.
  - repeat constructor.
  - apply (bool_decide_unpack _). vm_compute. exact I.
Defined.

(** X4. When the tokens before the last are well formed and the last token
    is no decimal unsigned 64-bit integer, [Set] fails with the [NumError]
    that quotes the last token: the syntax error for an empty token (an
    empty input, a trailing comma) and for a token that starts with a byte
    that is no digit, the range error for digits that do not fit 64 bits. *)
Theorem Set_last_token_error l s hist act :
  strings.Split s "," = (historicalToken <$> hist) ++ [act] →
  Forall decimalPair hist → isDecimalUint64 act = false →
  ∃ e,
    LogRangesFlag_Set l s
    = (emptyFlag, Some (ErrNumError {| strconv.Num := act; strconv.Err := e |}))
    ∧ (act = [] → e = strconv.ErrSyntax)
    ∧ (∀ c r, act = c :: r → isDigit c = false → e = strconv.ErrSyntax)
    ∧ (act ≠ [] → forallb isDigit act = true → e = strconv.ErrRange).
Proof.
  intros Hs Hh Ha. unfold LogRangesFlag_Set.
  rewrite Hs, removelast_snoc, last_snoc, parseRanges_ok by done.
  destruct (ParseUint_fails act Ha) as (n & e & He). rewrite He.
  exists (strconv.Err e). split; [by rewrite <- (ParseUint_error _ _ _ He)|].
  split; [|split].
  - intros ->. by injection He as _ <-.
  - intros c r -> Hc. unfold strconv.ParseUint in He.
    rewrite ParseUint_loop_not_digit in He by done. by injection He as _ <-.
  - intros Hne Hd. destruct act as [|c r]; [done|].
    unfold strconv.ParseUint in He. rewrite ParseUint_loop_overflow in He.
    + by injection He as _ <-.
    + done.
    + done.
    + unfold isDecimalUint64 in Ha. rewrite Hd in Ha. simpl in Ha.
      apply Z.leb_gt in Ha. done.
Qed.

Lemma Set_last_token_error_witness :
  ∃ e,
    LogRangesFlag_Set emptyFlag (str "1=2,18446744073709551616")
    = (emptyFlag,
       Some (ErrNumError {| strconv.Num := str "18446744073709551616";
                            strconv.Err := e |}))
    ∧ (str "18446744073709551616" = [] → e = strconv.ErrSyntax)
    ∧ (∀ c r, str "18446744073709551616" = c :: r → isDigit c = false →
              e = strconv.ErrSyntax)
    ∧ (str "18446744073709551616" ≠ [] →
       forallb isDigit (str "18446744073709551616") = true → e = strconv.ErrRange).
Proof.
  refine (Set_last_token_error emptyFlag (str "1=2,18446744073709551616")
            [(str "1", str "2")] (str "18446744073709551616") _ _ _).
  - reflexivity.
  - repeat constructor.
  - reflexivity.
Defined.

Lemma renderShard_SplitN2 r :
  0 ≤ api.TreeID r →
  strings.SplitN2 (renderShard r) "="
  = [fmt.Sprintf_d (api.TreeID r); fmt.Sprintf_d (api.TreeLength r)].
Proof.
  intros H1. apply SplitN2_app_sep, digits_no_char; [done|].
  by apply Sprintf_d_digits.
Qed.

Lemma renderShard_inj r1 r2 :
  0 ≤ api.TreeID r1 ≤ strconv.maxUint64 → 0 ≤ api.TreeLength r1 ≤ strconv.maxUint64 →
  0 ≤ api.TreeID r2 ≤ strconv.maxUint64 → 0 ≤ api.TreeLength r2 ≤ strconv.maxUint64 →
  renderShard r1 = renderShard r2 → r1 = r2.
Proof.
  intros I1 L1 I2 L2 Heq.
  pose proof (renderShard_SplitN2 r1 (proj1 I1)) as E1.
  rewrite Heq, renderShard_SplitN2 in E1 by apply I2.
  injection E1 as Ei El.
  apply (f_equal digitsValue) in Ei, El.
  rewrite (proj2 (Sprintf_d_decimal _ I1)), (proj2 (Sprintf_d_decimal _ I2)) in Ei.
  rewrite (proj2 (Sprintf_d_decimal _ L1)), (proj2 (Sprintf_d_decimal _ L2)) in El.
  destruct r1, r2. simpl in *. by subst.
Qed.

Lemma renderShard_not_nil r : renderShard r ≠ [].
Proof. unfold renderShard, fmt.Sprintf_d_eq_d. by destruct (fmt.Sprintf_d _). Qed.

Lemma Join_cons e es sep :
  es ≠ [] → strings.Join (e :: es) sep = e ++ sep :: strings.Join es sep.
Proof. by destruct es. Qed.

Lemma Join_snoc_app ts x y sep :
  strings.Join (ts ++ [x ++ y]) sep = strings.Join (ts ++ [x]) sep ++ y.
Proof.
  induction ts as [|t ts IH]; [done|].
  rewrite <- !app_comm_cons, !Join_cons by by destruct ts.
  by rewrite IH, <- app_assoc.
Qed.

(** X5. [String] tells configs apart: two configs of unsigned 64-bit values
    with the same text are the same config. *)
Theorem String_injective l1 l2 :
  Forall (fun r => 0 ≤ api.TreeID r ≤ strconv.maxUint64
                   ∧ 0 ≤ api.TreeLength r ≤ strconv.maxUint64)
         (api.Ranges (Ranges l1)) →
  Forall (fun r => 0 ≤ api.TreeID r ≤ strconv.maxUint64
                   ∧ 0 ≤ api.TreeLength r ≤ strconv.maxUint64)
         (api.Ranges (Ranges l2)) →
  LogRangesFlag_String l1 = LogRangesFlag_String l2 → l1 = l2.
Proof.
  destruct l1 as [[rs1]], l2 as [[rs2]]. simpl. intros F1 F2 Heq.
  assert (∀ rs, Forall (fun r => 0 ≤ api.TreeID r ≤ strconv.maxUint64
                   ∧ 0 ≤ api.TreeLength r ≤ strconv.maxUint64) rs →
          Forall (fun r => 0 ≤ api.TreeID r ∧ 0 ≤ api.TreeLength r) rs) as Hw.
  { intros rs Hrs. eapply Forall_impl; [done|]. simpl. lia. }
  assert (renderShard <$> rs1 = renderShard <$> rs2) as Hr.
  { destruct rs1 as [|r1 rs1], rs2 as [|r2 rs2]; [done| | |].
    - apply (f_equal (fun s => strings.Split s ",")) in Heq.
      rewrite (String_Split (r2 :: rs2)) in Heq by (done || by apply Hw).
      injection Heq as Heq _. symmetry in Heq. by apply renderShard_not_nil in Heq.
    - apply (f_equal (fun s => strings.Split s ",")) in Heq.
      rewrite (String_Split (r1 :: rs1)) in Heq by (done || by apply Hw).
      injection Heq as Heq _. by apply renderShard_not_nil in Heq.
    - apply (f_equal (fun s => strings.Split s ",")) in Heq.
      rewrite !String_Split in Heq by (done || by apply Hw). done. }
  do 2 f_equal. clear Heq Hw.
  revert rs2 F2 Hr. induction F1 as [|r1 rs1 [I1 L1] F1 IH]; intros rs2 F2 Hr.
  { by destruct rs2. }
  destruct F2 as [|r2 rs2 [I2 L2] F2]; [done|].
  rewrite !fmap_cons in Hr. injection Hr as Hr Hrs.
  f_equal; [by apply renderShard_inj|by apply IH].
Qed.

Lemma String_injective_witness :
  let l1 := {| Ranges := {| api.Ranges :=
                [ {| api.TreeID := 1; api.TreeLength := 100 |};
                  {| api.TreeID := 2; api.TreeLength := 0 |} ] |} |} in
  let l2 := (LogRangesFlag_Set emptyFlag (str "01=0100,2")).1 in
  l1 = l2.
Proof.
  intros l1 l2. apply (String_injective l1 l2).
  - repeat constructor; vm_compute; discriminate.
  - repeat constructor; vm_compute; discriminate.
  - vm_compute. reflexivity.
Defined.

(** X6. What [String] writes after a successful [Set] is the description of
    the stored config but for its last two bytes [=0]: without them [Set]
    accepts the text and stores the same config again. *)
Theorem Set_String_round_trip l s l' l0 :
  LogRangesFlag_Set l s = (l', None) →
  LogRangesFlag_Set l0
    (take (length (LogRangesFlag_String l') - 2) (LogRangesFlag_String l'))
  = (l', None).
Proof.
  intros H. apply Set_success in H as (hist & act & -> & Hh & Ha & Hnd & ->).
  set (canon := fun p : list ascii * list ascii =>
                  (fmt.Sprintf_d (digitsValue p.1), fmt.Sprintf_d (digitsValue p.2))).
  assert (LogRangesFlag_String {| Ranges := {| api.Ranges := shardsOf hist act |} |}
          = description (canon <$> hist) (fmt.Sprintf_d (digitsValue act)) ++ str "=0")
    as ->.
  { unfold LogRangesFlag_String, description, shardsOf. simpl.
    rewrite fmap_app. simpl. rewrite <- Join_snoc_app. f_equal. f_equal.
    rewrite <- !list_fmap_compose. done. }
  rewrite length_app. simpl length.
  replace (length (description (canon <$> hist) (fmt.Sprintf_d (digitsValue act))) + 2 - 2)%nat
    with (length (description (canon <$> hist) (fmt.Sprintf_d (digitsValue act)))) by lia.
  rewrite take_app_length.
  assert (Forall decimalPair (canon <$> hist)) as Hh'.
  { apply Forall_fmap. eapply Forall_impl; [done|]. intros p [H1 H2].
    split; simpl; by apply Sprintf_d_decimal, isDecimalUint64_range. }
  pose proof (isDecimalUint64_range _ Ha) as Hr.
  destruct (Sprintf_d_decimal _ Hr) as [Ha' Hv].
  assert (shardsOf (canon <$> hist) (fmt.Sprintf_d (digitsValue act)) = shardsOf hist act)
    as Hsh.
  { unfold shardsOf, activeShard. rewrite Hv. f_equal.
    rewrite <- list_fmap_compose. apply Forall_fmap_ext_1.
    eapply Forall_impl; [done|]. intros p [H1 H2]. unfold historicalShard. simpl.
    by rewrite (proj2 (Sprintf_d_decimal _ (isDecimalUint64_range _ H1))),
      (proj2 (Sprintf_d_decimal _ (isDecimalUint64_range _ H2))). }
  rewrite Set_description, Hsh by done.
  rewrite findDuplicate_None; [done|done|]. intros x _. apply not_elem_of_empty.
Qed.

Lemma Set_String_round_trip_witness :
  let l' := {| Ranges := {| api.Ranges :=
                [ {| api.TreeID := 1; api.TreeLength := 100 |};
                  {| api.TreeID := 2; api.TreeLength := 0 |} ] |} |} in
  LogRangesFlag_Set emptyFlag
    (take (length (LogRangesFlag_String l') - 2) (LogRangesFlag_String l'))
  = (l', None).
Proof.
  exact (Set_String_round_trip emptyFlag (str "01=100,02") _ emptyFlag eq_refl).
Defined.

(** ** More on the loops of the backfill *)

Section BackfillMore.
Context `{Collaborators}.

Lemma keysLoop_flag i uuid keys s s' w :
  (keysLoop i uuid keys s w).1.2 = (keysLoop i uuid keys s' w).1.2
  ∧ (keysLoop i uuid keys s w).2 = (keysLoop i uuid keys s' w).2.
Proof.
  revert s s' w. induction keys as [|key keys IH]; intros s s' w; [done|].
  rewrite !keysLoop_cons. destruct (LPUSH key uuid w) as [[e|] w1]; [done|].
  specialize (IH s s' w1).
  destruct (keysLoop i uuid keys s w1) as [[s1 w2] t].
  destruct (keysLoop i uuid keys s' w1) as [[s1' w2'] t'].
  simpl in *. destruct IH as [-> ->]. done.
Qed.

(** X8. The success flag is a record only: the work the loop over the pairs
    does (the state it leaves the servers in and the trace) is the same
    whether a failure was recorded before or not, and a recorded failure is
    never cleared. *)
Theorem payloadLoop_flag_irrelevant i payload s s' w :
  (payloadLoop i payload s w).1.2 = (payloadLoop i payload s' w).1.2
  ∧ (payloadLoop i payload s w).2 = (payloadLoop i payload s' w).2
  ∧ (payloadLoop i payload false w).1.1 = false.
Proof.
  split; [|split].
  - revert s s' w. induction payload as [|[uuid body] payload IH]; intros s s' w; [done|].
    destruct (unmarshalEntryImpl body) as [err|[[e k] v]] eqn:Hd.
    { by rewrite !(payloadLoop_decode_error _ _ _ _ _ _ _ Hd). }
    destruct (IndexKeys e w) as [[err|keys] w1] eqn:Hk.
    { by rewrite !(payloadLoop_keys_error _ _ _ _ _ _ _ _ _ _ _ Hd Hk). }
    rewrite !(payloadLoop_keys _ _ _ _ _ _ _ _ _ _ _ Hd Hk).
    destruct (keysLoop_flag i uuid keys s s' w1) as [Hw Ht].
    destruct (keysLoop i uuid keys s w1) as [[s1 w2] t1].
    destruct (keysLoop i uuid keys s' w1) as [[s1' w2'] t1'].
    simpl in Hw, Ht. subst. specialize (IH s1 s1' w2').
    destruct (payloadLoop i payload s1 w2') as [[s2 w3] t2].
    by destruct (payloadLoop i payload s1' w2') as [[s2' w3'] t2'].
  - revert s s' w. induction payload as [|[uuid body] payload IH]; intros s s' w; [done|].
    destruct (unmarshalEntryImpl body) as [err|[[e k] v]] eqn:Hd.
    { by rewrite !(payloadLoop_decode_error _ _ _ _ _ _ _ Hd). }
    destruct (IndexKeys e w) as [[err|keys] w1] eqn:Hk.
    { by rewrite !(payloadLoop_keys_error _ _ _ _ _ _ _ _ _ _ _ Hd Hk). }
    rewrite !(payloadLoop_keys _ _ _ _ _ _ _ _ _ _ _ Hd Hk).
    destruct (keysLoop_flag i uuid keys s s' w1) as [Hw Ht].
    destruct (keysLoop i uuid keys s w1) as [[s1 w2] t1].
    destruct (keysLoop i uuid keys s' w1) as [[s1' w2'] t1'].
    simpl in Hw, Ht. subst. specialize (IH s1 s1' w2').
    destruct (payloadLoop i payload s1 w2') as [[s2 w3] t2].
    destruct (payloadLoop i payload s1' w2') as [[s2' w3'] t2'].
    simpl in *. by rewrite IH.
  - destruct (payloadLoop i payload false w) as [[s1 w1] t1] eqn:E.
    by apply payloadLoop_trace in E as [-> _].
Qed.

Lemma writesOf_app (t1 t2 : list event) :
  writesOf (t1 ++ t2) = writesOf t1 ++ writesOf t2.
Proof. apply omap_app. Qed.

Lemma payloadLoop_writes i payload s w :
  Forall (fun kv => kv.2 ∈ payload.*1) (writesOf (payloadLoop i payload s w).2).
Proof.
  revert s w. induction payload as [|[uuid body] payload IH]; intros s w.
  { constructor. }
  assert (∀ s' w',
    Forall (fun kv : list ascii * list ascii => kv.2 ∈ ((uuid, body) :: payload).*1)
           (writesOf (payloadLoop i payload s' w').2)) as IH'.
  { intros s' w'. eapply Forall_impl; [apply IH|]. intros kv Hkv. by right. }
  destruct (unmarshalEntryImpl body) as [err|[[e k] v]] eqn:Hd.
  { rewrite (payloadLoop_decode_error _ _ _ _ _ _ _ Hd). specialize (IH' false w).
    by destruct (payloadLoop i payload false w) as [[s1 w1] t1]. }
  destruct (IndexKeys e w) as [[err|keys] w1] eqn:Hk.
  { rewrite (payloadLoop_keys_error _ _ _ _ _ _ _ _ _ _ _ Hd Hk). specialize (IH' false w1).
    by destruct (payloadLoop i payload false w1) as [[s1 w2] t1]. }
  rewrite (payloadLoop_keys _ _ _ _ _ _ _ _ _ _ _ Hd Hk).
  destruct (keysLoop_reports i uuid keys s w1) as [Hks _].
  destruct (keysLoop i uuid keys s w1) as [[s1 w2] t1].
  specialize (IH' s1 w2).
  destruct (payloadLoop i payload s1 w2) as [[s2 w3] t2]. simpl in *.
  rewrite writesOf_app, Hks. apply Forall_app. split; [|done].
  apply Forall_fmap, Forall_true. intros key. simpl. left.
Qed.

(** X9. Every write of an index puts the UUID of one of the pairs retrieved
    for that index in the list of a key, and an index whose retrieval fails
    writes nothing. *)
Theorem iteration_writes_retrieved_uuids i w :
  (∀ err w1, GetLogEntryByIndex i w = (inl err, w1) →
             writesOf (iteration i w).2 = [])
  ∧ (∀ payload w1, GetLogEntryByIndex i w = (inr payload, w1) →
       Forall (fun kv => kv.2 ∈ payload.*1) (writesOf (iteration i w).2)).
Proof.
  split.
  - intros err w1 Hg. by rewrite (iteration_fatal _ _ _ _ Hg).
  - intros payload w1 Hg.
    pose proof (payloadLoop_writes i payload true w1) as Hw.
    destruct (payloadLoop i payload true w1) as [[s w2] t] eqn:Hp.
    rewrite (iteration_alive _ _ _ _ _ _ _ Hg Hp). simpl in *.
    change (CallGetLogEntryByIndex i :: t ++ [if s then PrintCompleted i else PrintErrors i])
      with ([CallGetLogEntryByIndex i] ++ t ++ [if s then PrintCompleted i else PrintErrors i]).
    rewrite !writesOf_app. simpl.
    destruct s; simpl; by rewrite app_nil_r.
Qed.
End BackfillMore.

Section BackfillRuns.
Context `{Collaborators}.

Lemma perEntry_no_index_event (t : list event) :
  forallb perEntry t = true → retrievalsOf t = [] ∧ outcomesOf t = [].
Proof.
  induction t as [|e t IH]; [done|]. simpl.
  intros [He Ht]%andb_true_iff. destruct (IH Ht) as [IH1 IH2].
  unfold retrievalsOf, outcomesOf in *. simpl. rewrite IH1, IH2. by destruct e.
Qed.

Lemma retrievalsOf_app (t1 t2 : list event) :
  retrievalsOf (t1 ++ t2) = retrievalsOf t1 ++ retrievalsOf t2.
Proof. apply omap_app. Qed.

Lemma outcomesOf_app (t1 t2 : list event) :
  outcomesOf (t1 ++ t2) = outcomesOf t1 ++ outcomesOf t2.
Proof. apply omap_app. Qed.

(** One turn of the loop retrieves its index once, and gives it one outcome
    line unless it ends in the fatal exit. *)
Lemma iteration_indices i w :
  retrievalsOf (iteration i w).2 = [i]
  ∧ outcomesOf (iteration i w).2
    = match (iteration i w).1.1 with Alive => [i] | Exited => [] end.
Proof.
  destruct (iteration_cases i w)
    as [(err & w1 & _ & ->)|(payload & w1 & success & w2 & t & _ & Hp & ->)]; [done|].
  apply payloadLoop_trace in Hp as [_ Ht].
  destruct (perEntry_no_index_event t Ht) as [Hr Ho]. simpl.
  change (CallGetLogEntryByIndex i
            :: t ++ [if success then PrintCompleted i else PrintErrors i])
    with ([CallGetLogEntryByIndex i]
            ++ t ++ [if success then PrintCompleted i else PrintErrors i]).
  rewrite !retrievalsOf_app, !outcomesOf_app, Hr, Ho. by destruct success.
Qed.

(** X10. A run over [a .. b], with [b] below the largest [int], retrieves
    the indices [a], [a + 1], ... in ascending order without a gap or a
    repetition, and prints their outcomes in the same order.  A run that
    returns has visited every index of the range (none when [b < a]), each
    with one retrieval and one outcome; a run that ends in the fatal exit has
    an outcome for every index it retrieved but the last. *)
Theorem run_visits_indices_in_order fuel a b w s w' t :
  - 2 ^ 63 ≤ a → b < 2 ^ 63 - 1 →
  indexLoop fuel a b w = Some (s, w', t) →
  ∃ n, 0 ≤ n
    ∧ retrievalsOf t = seqZ a n
    ∧ outcomesOf t = seqZ a (match s with Alive => n | Exited => n - 1 end)
    ∧ (s = Alive → n = Z.max 0 (b + 1 - a))
    ∧ (s = Exited → 1 ≤ n ≤ b + 1 - a).
Proof.
  revert a w s w' t. induction fuel as [|fuel IH]; intros a w s w' t Ha Hb; [done|].
  simpl. destruct (Z.leb_spec a b) as [Hab|Hab].
  2:{ intros [= <- <- <-]. exists 0. rewrite seqZ_nil by lia.
      repeat split; intros; (done || lia). }
  destruct (iteration_indices a w) as [Hr Ho].
  destruct (iteration a w) as [[[|] w1] t1]; simpl in Hr, Ho.
  - rewrite wrapInt_succ by lia.
    destruct (indexLoop fuel (a + 1) b w1) as [[[s2 w2] t2]|] eqn:E; [|done].
    intros [= <- <- <-].
    apply IH in E as (n & Hn & Hr2 & Ho2 & HA & HE); [|lia|done].
    exists (n + 1). rewrite retrievalsOf_app, outcomesOf_app, Hr, Ho, Hr2, Ho2.
    split; [lia|]. split; [|split; [|split]].
    + rewrite (seqZ_cons a (n + 1)) by lia. simpl. do 2 f_equal; lia.
    + destruct s2.
      * rewrite (seqZ_cons a (n + 1)) by lia. simpl. do 2 f_equal; lia.
      * specialize (HE eq_refl).
        rewrite (seqZ_cons a (n + 1 - 1)) by lia. simpl. do 2 f_equal; lia.
    + intros Hs. specialize (HA Hs). lia.
    + intros Hs. specialize (HE Hs). lia.
  - intros [= <- <- <-]. exists 1. rewrite Hr, Ho.
    repeat split; intros; (done || lia).
Qed.

(** X11. A run can be taken up again: when the run over [a .. m] has
    returned, the run over [m + 1 .. b] from the state it left gives, with
    the trace of the first in front, the run over [a .. b]. *)
Theorem run_resumes fuel1 fuel2 a m b w w1 t1 s w2 t2 :
  - 2 ^ 63 ≤ a → a ≤ m + 1 → m + 1 ≤ b → m + 1 < 2 ^ 63 →
  indexLoop fuel1 a m w = Some (Alive, w1, t1) →
  indexLoop fuel2 (m + 1) b w1 = Some (s, w2, t2) →
  ∀ k, indexLoop (fuel1 + fuel2 + k) a b w = Some (s, w2, t1 ++ t2).
Proof.
  intros Ha Ham Hmb Hm H1 H2 k. apply indexLoop_fuel.
  apply (indexLoop_split _ _ _ (m + 1) _ _ w1); [done..| |done].
  by replace (m + 1 - 1) with m by lia.
Qed.



End BackfillRuns.

Lemma run_visits_indices_in_order_witness :
  let t := match @indexLoop testbed 10 0 5 [] with
           | Some (_, _, t) => t
           | None => []
           end in
  ∃ n, 0 ≤ n
    ∧ retrievalsOf t = seqZ 0 n
    ∧ outcomesOf t = seqZ 0 (n - 1)
    ∧ (Exited = Alive → n = Z.max 0 (5 + 1 - 0))
    ∧ (Exited = Exited → 1 ≤ n ≤ 5 + 1 - 0).
Proof.
  intros t.
  refine (@run_visits_indices_in_order testbed 10 0 5 [] Exited
            match @indexLoop testbed 10 0 5 [] with
            | Some (_, w', _) => w'
            | None => []
            end t _ _ _).
  - lia.
  - lia.
  - vm_compute. reflexivity.
Defined.

Lemma run_resumes_witness :
  ∃ (w1 : @World testbed) (t1 t2 : list (@event testbed)),
    @indexLoop testbed 3 0 1 [] = Some (Alive, w1, t1)
    ∧ @indexLoop testbed 2 2 2 w1 = Some (Alive, w1, t2)
    ∧ @indexLoop testbed 5 0 2 [] = Some (Alive, w1, t1 ++ t2).
Proof.
  eexists _, _, _. split; [vm_compute; reflexivity|].
  split; [vm_compute; reflexivity|].
  refine (@run_resumes testbed 3 2 0 1 2 [] _ _ Alive _ _ _ _ _ _ _ _ 0%nat).
  - lia.
  - lia.
  - lia.
  - lia.
  - vm_compute. reflexivity.
  - vm_compute. reflexivity.
Defined.


Lemma indexLoop_terminates_witness :
  ∃ r, @indexLoop testbed (S (Z.to_nat (2 + 1 - 0))) 0 2 [] = Some r.
Proof.
  apply (@indexLoop_terminates testbed 0 2 []); lia.
Defined.

(** ** The setup of [main] *)

Section MainProperties.
Context {C : Collaborators} {Conn : Connections C}.

Lemma loopEvents_InLoop (t : list event) : loopEvents (InLoop <$> t) = t.
Proof.
  induction t as [|e t IH]; [done|].
  unfold loopEvents in *. simpl. f_equal. exact IH.
Qed.

Lemma loopEvents_app (t1 t2 : list mainEvent) :
  loopEvents (t1 ++ t2) = loopEvents t1 ++ loopEvents t2.
Proof. apply omap_app. Qed.

(** X14. When one of the five settings was not given, [main] ends in the
    fatal exit with one message and nothing else: no client is created, no
    retrieval and no write is made, and the servers are left as they were. *)
Theorem main_missing_setting fuel f w :
  redisAddress f = [] ∨ redisPort f = [] ∨ startIndex f = -1 ∨ endIndex f = -1
  ∨ rekorAddress f = [] →
  ∃ msg, main fuel f w = Some (Exited, w, [LogFatal msg]).
Proof.
  intros Hf. unfold main.
  destruct (redisAddress f) as [|c1 a1]; [by eexists|].
  destruct (redisPort f) as [|c2 a2]; [by eexists|].
  destruct (Z.eqb_spec (startIndex f) (-1)); [by eexists|].
  destruct (Z.eqb_spec (endIndex f) (-1)); [by eexists|].
  destruct (rekorAddress f) as [|c3 a3]; [by eexists|].
  by destruct Hf as [?|[?|[?|[?|?]]]].
Qed.

(** X15. The loop of [main] starts only after the whole setup: when a trace
    of [main] holds an event of the loop, the five settings were given, the
    Redis client was created for [address:port] and the log client for the
    log address, both without error, in that order, and the status, the
    final state and the events of the loop are those of the loop over
    [startIndex .. endIndex]. *)
Theorem main_loop_after_setup fuel f w s w' t :
  main fuel f w = Some (s, w', t) → loopEvents t ≠ [] →
  redisAddress f ≠ [] ∧ redisPort f ≠ [] ∧ startIndex f ≠ -1 ∧ endIndex f ≠ -1
  ∧ rekorAddress f ≠ []
  ∧ ∃ w1 w2,
      PoolConfig_New (redisAddress f ++ ":"%char :: redisPort f) w = (None, w1)
      ∧ GetRekorClient (rekorAddress f) w1 = (None, w2)
      ∧ indexLoop fuel (startIndex f) (endIndex f) w2 = Some (s, w', loopEvents t)
      ∧ t = CallPoolConfigNew (str "tcp") (redisAddress f ++ ":"%char :: redisPort f)
              :: CallGetRekorClient (rekorAddress f) :: (InLoop <$> loopEvents t).
Proof.
  unfold main.
  destruct (redisAddress f) as [|c1 a1]; [by intros [= <- <- <-]|].
  destruct (redisPort f) as [|c2 a2]; [by intros [= <- <- <-]|].
  destruct (Z.eqb_spec (startIndex f) (-1)); [by intros [= <- <- <-]|].
  destruct (Z.eqb_spec (endIndex f) (-1)); [by intros [= <- <- <-]|].
  destruct (rekorAddress f) as [|c3 a3]; [by intros [= <- <- <-]|].
  destruct (PoolConfig_New _ w) as [[e1|] w1] eqn:E1; [by intros [= <- <- <-]|].
  destruct (GetRekorClient _ w1) as [[e2|] w2] eqn:E2; [by intros [= <- <- <-]|].
  destruct (indexLoop fuel _ _ w2) as [[[s3 w3] t3]|] eqn:E; [|done].
  intros [= <- <- <-] _. simpl. rewrite loopEvents_InLoop.
  repeat split; try done. by exists w1, w2.
Qed.

(** X16. The setup turns down the start index -1 and no other: the loop
    asks the log for [startIndex] as it was given, a negative one too, when
    the range is not empty. *)
Theorem main_retrieves_start_as_given fuel f w s w' t w1 w2 :
  redisAddress f ≠ [] → redisPort f ≠ [] → startIndex f ≠ -1 → endIndex f ≠ -1 →
  rekorAddress f ≠ [] →
  PoolConfig_New (redisAddress f ++ ":"%char :: redisPort f) w = (None, w1) →
  GetRekorClient (rekorAddress f) w1 = (None, w2) →
  startIndex f ≤ endIndex f →
  main fuel f w = Some (s, w', t) →
  ∃ rest, loopEvents t = CallGetLogEntryByIndex (startIndex f) :: rest.
Proof.
  intros Ha Hp Hs He Hr Hpool Hcli Hse. unfold main.
  destruct (redisAddress f) as [|c1 a1]; [done|].
  destruct (redisPort f) as [|c2 a2]; [done|].
  destruct (Z.eqb_spec (startIndex f) (-1)); [done|].
  destruct (Z.eqb_spec (endIndex f) (-1)); [done|].
  destruct (rekorAddress f) as [|c3 a3]; [done|].
  rewrite Hpool, Hcli.
  destruct fuel as [|fuel]; [done|]. simpl indexLoop.
  destruct (Z.leb_spec (startIndex f) (endIndex f)); [|lia].
  destruct (iteration_cases (startIndex f) w2)
    as [(err & w3 & _ & ->)|(payload & w3 & success & w4 & t4 & _ & _ & ->)].
  - intros [= <- <- <-]. simpl. by eexists.
  - destruct (indexLoop fuel _ _ w4) as [[[s5 w5] t5]|]; [|done].
    intros [= <- <- <-]. simpl. by eexists.
Qed.
End MainProperties.

Lemma main_missing_setting_witness :
  ∃ msg,
    @main testbed testbedConnections 10
      {| redisAddress := str "redis"; redisPort := str "6379"; startIndex := 0;
         endIndex := -1; rekorAddress := str "https://rekor" |} []
    = Some (Exited, [], [LogFatal msg]).
Proof.
  apply (@main_missing_setting testbed testbedConnections). simpl. tauto.
Defined.

Lemma main_loop_after_setup_witness :
  let f := {| redisAddress := str "redis"; redisPort := str "6379"; startIndex := 0;
              endIndex := 0; rekorAddress := str "https://rekor" |} in
  let t := [ @CallPoolConfigNew testbed (str "tcp") (str "redis:6379");
             @CallGetRekorClient testbed (str "https://rekor");
             InLoop (@CallGetLogEntryByIndex testbed 0);
             InLoop (@PrintCompleted testbed 0) ] in
  redisAddress f ≠ [] ∧ redisPort f ≠ [] ∧ startIndex f ≠ -1 ∧ endIndex f ≠ -1
  ∧ rekorAddress f ≠ []
  ∧ ∃ w1 w2,
      @PoolConfig_New testbed testbedConnections
        (redisAddress f ++ ":"%char :: redisPort f) [] = (None, w1)
      ∧ @GetRekorClient testbed testbedConnections (rekorAddress f) w1 = (None, w2)
      ∧ @indexLoop testbed 10 (startIndex f) (endIndex f) w2
        = Some (Alive, [], loopEvents t)
      ∧ t = @CallPoolConfigNew testbed (str "tcp")
              (redisAddress f ++ ":"%char :: redisPort f)
              :: @CallGetRekorClient testbed (rekorAddress f)
              :: (InLoop <$> loopEvents t).
Proof.
  intros f t.
  apply (@main_loop_after_setup testbed testbedConnections 10 f [] Alive [] t).
  - vm_compute. reflexivity.
  - vm_compute. discriminate.
Defined.

Lemma main_retrieves_start_as_given_witness :
  let f := {| redisAddress := str "redis"; redisPort := str "6379"; startIndex := -5;
              endIndex := -4; rekorAddress := str "https://rekor" |} in
  ∃ rest,
    loopEvents
      match @main testbed testbedConnections 10 f [] with
      | Some (_, _, t) => t
      | None => []
      end
    = @CallGetLogEntryByIndex testbed (-5) :: rest.
Proof.
  intros f.
  refine (@main_retrieves_start_as_given testbed testbedConnections 10 f [] Alive [] _
            [] [] _ _ _ _ _ _ _ _ _); try done.
Defined.
